(** * Rule evaluation of node-feature-discovery: pkg/apis/nfd/v1alpha1/nodefeaturerule/expression.go

    A shallow embedding of the match-expression evaluator and the properties
    its specification states about it.

    Go values are represented as follows.
    - [string] is a Go string (a sequence of bytes); [<] on Go strings is the
      bytewise lexicographic order, [String.ltb].
    - [int] is the 64-bit Go [int], a [Z] together with the range check that
      [strconv.Atoi] performs.
    - [map[string]V] is [gmap string V].  Go leaves the order of [range] over
      a map unspecified, and two loops over one map may see two different
      orders: every function that ranges over a map takes the order picked by
      the runtime as an argument (see [MapRange]).
    - a slice is a list; where the code distinguishes the nil slice from an
      empty one the slice is an [option (list _)] and [None] is nil.
    - [(T, error)] results are pairs whose last component is an
      [option Error], [None] being the nil error.
    - klog calls only write diagnostics and are left out. *)

From Stdlib Require Import ZArith String Ascii Bool List Sorted Permutation.
From stdpp Require Import base option list gmap strings sorting.

Local Open Scope string_scope.
Local Open Scope Z_scope.

(** ** Data model (package nfdv1alpha1) *)

(** Modelled from the spec: the type [MatchOp] and its eleven constants are
    declared in package nfdv1alpha1 (types.go), which is not among the
    sources.  [MatchOp] is a string type there, so a value outside the
    catalog can reach the evaluator; [UnknownOp tag] stands for such a
    value. *)
Inductive MatchOp : Type :=
  | MatchAny
  | MatchIn
  | MatchNotIn
  | MatchInRegexp
  | MatchExists
  | MatchDoesNotExist
  | MatchGt
  | MatchLt
  | MatchGtLt
  | MatchIsTrue
  | MatchIsFalse
  | UnknownOp (tag : string).

#[global] Instance MatchOp_eq_dec : EqDecision MatchOp.
Proof. solve_decision. Defined.

(** Modelled from the spec: [MatchExpression] is the struct
    [{Op MatchOp; Value MatchValue}] of package nfdv1alpha1, [MatchValue]
    being a slice of strings. *)
Record MatchExpression : Type := mkMatchExpression {
  Op : MatchOp;
  Value : list string
}.

(** [type MatchExpressionSet map[string]*MatchExpression] *)
Abbreviation MatchExpressionSet := (gmap string MatchExpression).

(** [nfdv1alpha1.Nil] is the empty struct; [map[string]Nil] is a set of keys. *)
Definition Nil : Type := unit.

(** [InstanceFeature] carries the attributes of one instance. *)
Record InstanceFeature : Type := mkInstanceFeature {
  Attributes : gmap string string
}.

(** [type MatchedElement map[string]string] *)
Abbreviation MatchedElement := (gmap string string).

(** Indexing a Go map yields the zero value for a missing key. *)
Definition index (m : gmap string string) (k : string) : string :=
  default "" (m !! k).

(** The second result of the comma-ok form [_, ok := m[k]]. *)
Definition present {V} (k : string) (m : gmap string V) : bool :=
  bool_decide (is_Some (m !! k)).

(** ** Errors

    The code builds every error with [fmt.Errorf]; an error is represented
    by the message it was built from, with the arguments of the format. *)
Inductive Error : Type :=
  | InvalidOperator (op : MatchOp)
      (** "invalid Op %q" *)
  | ArityEmpty (op : MatchOp) (have : list string)
      (** "invalid expression, 'value' field must be empty for Op %q (have %v)" *)
  | ArityNonEmpty (op : MatchOp)
      (** "invalid expression, 'value' field must be non-empty for Op %q" *)
  | ArityOne (op : MatchOp) (have : list string)
      (** "... 'value' field must contain exactly one element for Op %q (have %v)" *)
  | ArityTwo (op : MatchOp) (have : list string)
      (** "... value' field must contain exactly two elements for Op %q (have %v)" *)
  | InvalidRegexp (op : MatchOp) (have : list string)
      (** "... 'value' field must only contain valid regexps for Op %q (have %v)" *)
  | NotANumber (s : string)
      (** "not a number %q" *)
  | NotANumberIn (s : string) (m : MatchExpression)
      (** "not a number %q in %v" *)
  | InvalidRange (op : MatchOp) (have : list string)
      (** "... value[0] must be less than Value[1] for Op %q (have %v)" *)
  | UnsupportedOperator (op : MatchOp)
      (** "unsupported Op %q" *)
  | InvalidOperatorForKeyMatch (op : MatchOp)
      (** "invalid Op %q when matching keys" *).

(** The spec's ArityError covers the four operand-count messages. *)
Definition is_ArityError (e : Error) : bool :=
  match e with
  | ArityEmpty _ _ | ArityNonEmpty _ | ArityOne _ _ | ArityTwo _ _ => true
  | _ => false
  end.

(** ** Go library functions used by the evaluator *)

(** *** strconv.Atoi

    [Atoi] accepts an optional sign followed by one or more decimal digits
    and nothing else, and fails when the number does not fit [int]. *)
Definition int_min : Z := - 2 ^ 63.
Definition int_max : Z := 2 ^ 63 - 1.

Definition digit (c : ascii) : option Z :=
  let n := Z.of_N (N_of_ascii c) in
  if (48 <=? n) && (n <=? 57) then Some (n - 48) else None.

Fixpoint digits (acc : Z) (s : string) : option Z :=
  match s with
  | EmptyString => Some acc
  | String c s' =>
      match digit c with
      | Some d => digits (acc * 10 + d) s'
      | None => None
      end
  end.

Definition unsigned (s : string) : option Z :=
  match s with
  | EmptyString => None
  | _ => digits 0 s
  end.

Definition Atoi (s : string) : option Z :=
  let signed :=
    match s with
    | String "-" s' => Z.opp <$> unsigned s'
    | String "+" s' => unsigned s'
    | _ => unsigned s
    end in
  match signed with
  | Some n => if (int_min <=? n) && (n <=? int_max) then Some n else None
  | None => None
  end.

(** *** fmt.Sprintf("%v", value)

    The parameter [value] of [evaluateMatchExpression] has type
    [interface{}], and every call in the package passes a string, which
    the verb %v prints unchanged. *)
Definition Sprintf_v (value : string) : string := value.

(** *** Package regexp

    The regular-expression engine is an interface of the development:
    [Compile] fails on a pattern that is not a regular expression, and
    [MatchString re s] tells whether [s] contains a match of [re]. *)
Class Regexp : Type := {
  regexp : Type;
  Compile : string → option regexp;
  MatchString : regexp → string → bool
}.

(** *** sort.Slice

    [sort.Slice] is not stable; what it guarantees is that the slice is
    rearranged, and that for a [less] that is a strict weak order no element
    is less than its predecessor afterwards. *)
Definition strict_weak_order {A} (less : A → A → bool) : Prop :=
  (∀ a, less a a = false) ∧
  (∀ a b c, less a b = true → less b c = true → less a c = true) ∧
  (∀ a b c, less a b = false → less b c = false → less a c = false).

Class Sort : Type := {
  sort_Slice : ∀ {A : Type}, (A → A → bool) → list A → list A;
  sort_Slice_Permutation :
    ∀ {A} (less : A → A → bool) (x : list A), sort_Slice less x ≡ₚ x;
  sort_Slice_Sorted :
    ∀ {A} (less : A → A → bool) (x : list A),
      strict_weak_order less →
      Sorted (λ a b, less b a = false) (sort_Slice less x)
}.

(** *** range over a map

    [MapRange V] is the choice of an iteration order for each map; the
    runtime's choice visits every entry of the map exactly once. *)
Definition MapRange (V : Type) : Type := gmap string V → list (string * V).

Definition range_ok {V} (rg : MapRange V) : Prop :=
  ∀ m, rg m ≡ₚ map_to_list m.

(** ** The evaluator *)

(** [var matchOps]: the catalog of operators. *)
Definition matchOps : list MatchOp :=
  [ MatchAny; MatchIn; MatchNotIn; MatchInRegexp; MatchExists;
    MatchDoesNotExist; MatchGt; MatchLt; MatchGtLt; MatchIsTrue;
    MatchIsFalse ].

Section Evaluator.
Context `{RE : Regexp}.

(** The first loop of the InRegexp case: every operand is compiled, and the
    first one that does not compile ends the loop. *)
Fixpoint compile_all (vs : list string) : option (list regexp) :=
  match vs with
  | [] => Some []
  | v :: vs' =>
      match Compile v with
      | None => None
      | Some re =>
          match compile_all vs' with
          | None => None
          | Some res => Some (re :: res)
          end
      end
  end.

(** [for _, v := range m.Value { if value == v { return ... } }] *)
Definition equals_some (value : string) (vs : list string) : bool :=
  existsb (String.eqb value) vs.

(** [evaluateMatchExpression] evaluates the MatchExpression against a
    single input value. *)
Definition evaluateMatchExpression (m : MatchExpression) (valid : bool)
    (value : string) : bool * option Error :=
  if negb (bool_decide (Op m ∈ matchOps)) then
    (false, Some (InvalidOperator (Op m)))
  else
    let empty := (length (Value m) =? 0)%nat in
    match Op m with
    | MatchAny =>
        if negb empty then (false, Some (ArityEmpty (Op m) (Value m)))
        else (true, None)
    | MatchExists =>
        if negb empty then (false, Some (ArityEmpty (Op m) (Value m)))
        else (valid, None)
    | MatchDoesNotExist =>
        if negb empty then (false, Some (ArityEmpty (Op m) (Value m)))
        else (negb valid, None)
    | _ =>
        if valid then
          let value := Sprintf_v value in
          match Op m with
          | MatchIn =>
              if empty then (false, Some (ArityNonEmpty (Op m)))
              else if equals_some value (Value m) then (true, None)
              else (false, None)
          | MatchNotIn =>
              if empty then (false, Some (ArityNonEmpty (Op m)))
              else if equals_some value (Value m) then (false, None)
              else (true, None)
          | MatchInRegexp =>
              if empty then (false, Some (ArityNonEmpty (Op m)))
              else
                match compile_all (Value m) with
                | None => (false, Some (InvalidRegexp (Op m) (Value m)))
                | Some valueRe =>
                    if existsb (λ re, MatchString re value) valueRe
                    then (true, None)
                    else (false, None)
                end
          | MatchGt | MatchLt =>
              match Value m with
              | [v0] =>
                  match Atoi value with
                  | None => (false, Some (NotANumber value))
                  | Some l =>
                      match Atoi v0 with
                      | None => (false, Some (NotANumberIn v0 m))
                      | Some r =>
                          if ((l <? r) && bool_decide (Op m = MatchLt))
                             || ((l >? r) && bool_decide (Op m = MatchGt))
                          then (true, None)
                          else (false, None)
                      end
                  end
              | _ => (false, Some (ArityOne (Op m) (Value m)))
              end
          | MatchGtLt =>
              match Value m with
              | [v0; v1] =>
                  match Atoi value with
                  | None => (false, Some (NotANumber value))
                  | Some v =>
                      match Atoi v0 with
                      | None => (false, Some (NotANumberIn v0 m))
                      | Some lr0 =>
                          match Atoi v1 with
                          | None => (false, Some (NotANumberIn v1 m))
                          | Some lr1 =>
                              if lr0 >=? lr1
                              then (false, Some (InvalidRange (Op m) (Value m)))
                              else ((v >? lr0) && (v <? lr1), None)
                          end
                      end
                  end
              | _ => (false, Some (ArityTwo (Op m) (Value m)))
              end
          | MatchIsTrue =>
              if negb empty then (false, Some (ArityEmpty (Op m) (Value m)))
              else (String.eqb value "true", None)
          | MatchIsFalse =>
              if negb empty then (false, Some (ArityEmpty (Op m) (Value m)))
              else (String.eqb value "false", None)
          | _ => (false, Some (UnsupportedOperator (Op m)))
          end
        else (false, None)
    end.

(** [evaluateMatchExpressionKeys] evaluates the MatchExpression against a
    set of keys. *)
Definition evaluateMatchExpressionKeys (m : MatchExpression) (name : string)
    (keys : gmap string Nil) : bool * option Error :=
  let ok := present name keys in
  match Op m with
  | MatchAny => (true, None)
  | MatchExists => (ok, None)
  | MatchDoesNotExist => (negb ok, None)
  | _ => (false, Some (InvalidOperatorForKeyMatch (Op m)))
  end.

(** [evaluateMatchExpressionValues] evaluates the MatchExpression against a
    set of key-value pairs. *)
Definition evaluateMatchExpressionValues (m : MatchExpression) (name : string)
    (values : gmap string string) : bool * option Error :=
  let v := index values name in
  let ok := present name values in
  match evaluateMatchExpression m ok v with
  | (_, Some err) => (false, Some err)
  | (matched, None) => (matched, None)
  end.

Context `{SO : Sort}.

(** [func(i, j int) bool { return ret[i]["Name"] < ret[j]["Name"] }] *)
Definition less_Name (a b : MatchedElement) : bool :=
  (index a "Name" <? index b "Name")%string.

(** [len] of a slice that may be nil. *)
Definition len {A} (v : option (list A)) : nat :=
  match v with
  | None => 0%nat
  | Some x => length x
  end.

(** The result of the functions that report the matched elements. *)
Definition Matched : Type :=
  (bool * option (list MatchedElement) * option Error)%type.

(** The loop of [MatchKeyNames] over the keys in the order [ks], and the
    code after it. *)
Fixpoint MatchKeyNames_loop (m : MatchExpression) (ks : list (string * Nil))
    (ret : list MatchedElement) : Matched :=
  match ks with
  | [] =>
      let ret := sort_Slice less_Name ret in
      ((0 <? length ret)%nat, Some ret, None)
  | (k, _) :: ks' =>
      match evaluateMatchExpression m true k with
      | (_, Some err) => (false, None, Some err)
      | (true, None) => MatchKeyNames_loop m ks' (ret ++ [ {[ "Name" := k ]} ])
      | (false, None) => MatchKeyNames_loop m ks' ret
      end
  end.

(** [MatchKeyNames] evaluates the MatchExpression against names of a set of
    key features. *)
Definition MatchKeyNames (rg : MapRange Nil) (m : MatchExpression)
    (keys : gmap string Nil) : Matched :=
  MatchKeyNames_loop m (rg keys) [].

Fixpoint MatchValueNames_loop (m : MatchExpression)
    (kvs : list (string * string)) (ret : list MatchedElement) : Matched :=
  match kvs with
  | [] =>
      let ret := sort_Slice less_Name ret in
      ((0 <? length ret)%nat, Some ret, None)
  | (k, v) :: kvs' =>
      match evaluateMatchExpression m true k with
      | (_, Some err) => (false, None, Some err)
      | (true, None) =>
          MatchValueNames_loop m kvs'
            (ret ++ [ {[ "Name" := k; "Value" := v ]} ])
      | (false, None) => MatchValueNames_loop m kvs' ret
      end
  end.

(** [MatchValueNames] evaluates the MatchExpression against names of a set
    of value features. *)
Definition MatchValueNames (rg : MapRange string) (m : MatchExpression)
    (values : gmap string string) : Matched :=
  MatchValueNames_loop m (rg values) [].

(** [MatchInstanceAttributeNames] evaluates the MatchExpression against a
    set of instance features, matching against the names of their
    attributes.  [rgs j] is the order of the range in the j-th call of
    [MatchValueNames]. *)
Fixpoint MatchInstanceAttributeNames_loop (rgs : nat → MapRange string)
    (m : MatchExpression) (instances : list InstanceFeature)
    (ret : list MatchedElement) : option (list MatchedElement) * option Error :=
  match instances with
  | [] => (Some ret, None)
  | i :: instances' =>
      match MatchValueNames (rgs 0%nat) m (Attributes i) with
      | (_, _, Some err) => (None, Some err)
      | (true, _, None) =>
          MatchInstanceAttributeNames_loop (rgs ∘ S) m instances'
            (ret ++ [Attributes i])
      | (false, _, None) =>
          MatchInstanceAttributeNames_loop (rgs ∘ S) m instances' ret
      end
  end.

Definition MatchInstanceAttributeNames (rgs : nat → MapRange string)
    (m : MatchExpression) (instances : list InstanceFeature)
    : option (list MatchedElement) * option Error :=
  MatchInstanceAttributeNames_loop rgs m instances [].

(** The loop of [MatchGetKeys] over the entries of the set in the order
    [es], and the code after it. *)
Fixpoint MatchGetKeys_loop (es : list (string * MatchExpression))
    (keys : gmap string Nil) (ret : list MatchedElement) : Matched :=
  match es with
  | [] => (true, Some (sort_Slice less_Name ret), None)
  | (n, e) :: es' =>
      match evaluateMatchExpressionKeys e n keys with
      | (_, Some err) => (false, None, Some err)
      | (false, None) => (false, None, None)
      | (true, None) => MatchGetKeys_loop es' keys (ret ++ [ {[ "Name" := n ]} ])
      end
  end.

(** [MatchGetKeys] evaluates the MatchExpressionSet against a set of keys and
    returns all matched keys or nil if no match was found. *)
Definition MatchGetKeys (rg : MapRange MatchExpression)
    (m : MatchExpressionSet) (keys : gmap string Nil) : Matched :=
  MatchGetKeys_loop (rg m) keys [].

(** [MatchKeys] evaluates the MatchExpressionSet against a set of keys. *)
Definition MatchKeys (rg : MapRange MatchExpression)
    (m : MatchExpressionSet) (keys : gmap string Nil) : bool * option Error :=
  let '(matched, _, err) := MatchGetKeys rg m keys in
  (matched, err).

Fixpoint MatchGetValues_loop (es : list (string * MatchExpression))
    (values : gmap string string) (ret : list MatchedElement) : Matched :=
  match es with
  | [] => (true, Some (sort_Slice less_Name ret), None)
  | (n, e) :: es' =>
      match evaluateMatchExpressionValues e n values with
      | (_, Some err) => (false, None, Some err)
      | (false, None) => (false, None, None)
      | (true, None) =>
          MatchGetValues_loop es' values
            (ret ++ [ {[ "Name" := n; "Value" := index values n ]} ])
      end
  end.

(** [MatchGetValues] evaluates the MatchExpressionSet against a set of
    key-value pairs and returns all matched key-value pairs. *)
Definition MatchGetValues (rg : MapRange MatchExpression)
    (m : MatchExpressionSet) (values : gmap string string) : Matched :=
  MatchGetValues_loop (rg m) values [].

(** [MatchValues] evaluates the MatchExpressionSet against a set of
    key-value pairs. *)
Definition MatchValues (rg : MapRange MatchExpression)
    (m : MatchExpressionSet) (values : gmap string string)
    : bool * option Error :=
  let '(matched, _, err) := MatchGetValues rg m values in
  (matched, err).

(** The loop of [MatchGetInstances]; [rgs j] is the order in which the j-th
    call of [MatchValues] ranges over the set. *)
Fixpoint MatchGetInstances_loop (rgs : nat → MapRange MatchExpression)
    (m : MatchExpressionSet) (instances : list InstanceFeature)
    (ret : list MatchedElement) : option (list MatchedElement) * option Error :=
  match instances with
  | [] => (Some ret, None)
  | i :: instances' =>
      match MatchValues (rgs 0%nat) m (Attributes i) with
      | (_, Some err) => (None, Some err)
      | (true, None) =>
          MatchGetInstances_loop (rgs ∘ S) m instances' (ret ++ [Attributes i])
      | (false, None) => MatchGetInstances_loop (rgs ∘ S) m instances' ret
      end
  end.

(** [MatchGetInstances] evaluates the MatchExpressionSet against a set of
    instance features; a slice containing all matching instances is
    returned. *)
Definition MatchGetInstances (rgs : nat → MapRange MatchExpression)
    (m : MatchExpressionSet) (instances : list InstanceFeature)
    : option (list MatchedElement) * option Error :=
  MatchGetInstances_loop rgs m instances [].

(** [MatchInstances] evaluates the MatchExpressionSet against a set of
    instance features. *)
Definition MatchInstances (rgs : nat → MapRange MatchExpression)
    (m : MatchExpressionSet) (instances : list InstanceFeature)
    : bool * option Error :=
  let '(v, err) := MatchGetInstances rgs m instances in
  ((0 <? len v)%nat, err).

End Evaluator.

#[global] Instance MatchExpression_eq_dec : EqDecision MatchExpression.
Proof. solve_decision. Defined.

#[global] Instance Error_eq_dec : EqDecision Error.
Proof. solve_decision. Defined.

(** ** Specification vocabulary *)

(** The operators whose answer depends on the candidate value. *)
Definition value_based (op : MatchOp) : bool :=
  match op with
  | MatchIn | MatchNotIn | MatchInRegexp | MatchGt | MatchLt | MatchGtLt
  | MatchIsTrue | MatchIsFalse => true
  | _ => false
  end.

(** The operators of the existence branches. *)
Definition existence (op : MatchOp) : bool :=
  match op with
  | MatchAny | MatchExists | MatchDoesNotExist => true
  | _ => false
  end.

(** The matched elements of a result. *)
Definition elements_of (r : Matched) : option (list MatchedElement) := r.1.2.

(** Ascending by the "Name" field, no name occurring twice. *)
Definition sorted_by_Name (x : list MatchedElement) : Prop :=
  StronglySorted (λ a b, (index a "Name" <? index b "Name")%string = true) x.

(** A record satisfies a set when every entry of the set matches it. *)
Definition satisfies `{Regexp} (m : MatchExpressionSet)
    (values : gmap string string) : Prop :=
  map_Forall (λ n e, evaluateMatchExpressionValues e n values = (true, None)) m.

#[global] Instance satisfies_dec `{Regexp} m values : Decision (satisfies m values).
Proof. unfold satisfies. apply _. Defined.

(** The loops of [MatchGetKeys] and [MatchGetValues] have one shape: [ev]
    evaluates an entry of the set and [elem] builds its matched element. *)
Fixpoint set_loop `{Sort} (ev : string → MatchExpression → bool * option Error)
    (elem : string → MatchedElement) (es : list (string * MatchExpression))
    (ret : list MatchedElement) : Matched :=
  match es with
  | [] => (true, Some (sort_Slice less_Name ret), None)
  | (n, e) :: es' =>
      match ev n e with
      | (_, Some err) => (false, None, Some err)
      | (false, None) => (false, None, None)
      | (true, None) => set_loop ev elem es' (ret ++ [elem n])
      end
  end.

(** So have the loops of [MatchKeyNames] and [MatchValueNames]. *)
Fixpoint names_loop `{Regexp} `{Sort} {V} (elem : string → V → MatchedElement)
    (m : MatchExpression) (kvs : list (string * V))
    (ret : list MatchedElement) : Matched :=
  match kvs with
  | [] =>
      let ret := sort_Slice less_Name ret in
      ((0 <? length ret)%nat, Some ret, None)
  | (k, v) :: kvs' =>
      match evaluateMatchExpression m true k with
      | (_, Some err) => (false, None, Some err)
      | (true, None) => names_loop elem m kvs' (ret ++ [elem k v])
      | (false, None) => names_loop elem m kvs' ret
      end
  end.

(** ** Engines for closed examples *)

(** [contains re s]: [re] occurs in [s]. *)
Fixpoint contains (re s : string) : bool :=
  String.prefix re s ||
  match s with
  | EmptyString => false
  | String _ s' => contains re s'
  end.

Definition alnum (c : ascii) : bool :=
  let n := Z.of_N (N_of_ascii c) in
  ((48 <=? n) && (n <=? 57)) || ((65 <=? n) && (n <=? 90))
  || ((97 <=? n) && (n <=? 122)).

Fixpoint all_alnum (s : string) : bool :=
  match s with
  | EmptyString => true
  | String c s' => alnum c && all_alnum s'
  end.

(** A regular-expression engine for the examples.  A pattern of letters and
    digits matches exactly the inputs that contain it, as in Go; every other
    pattern is refused, as Go refuses the pattern "(" used below. *)
Definition LiteralRegexp : Regexp := {|
  regexp := string;
  Compile := λ v, if all_alnum v then Some v else None;
  MatchString := contains
|}.

(** The two iteration orders used in the examples. *)
Definition forwards {V} : MapRange V := map_to_list.
Definition backwards {V} : MapRange V := λ m, reverse (map_to_list m).

(** A sort for the examples: merge sort, inserting in the order [less]. *)
Definition merge_sort_Slice {A} (less : A → A → bool) (x : list A) : list A :=
  @merge_sort A (λ a b, less b a = false) (λ a b, decide (less b a = false)) x.

(** Rules and data of the examples. *)
Definition vendor_rule : MatchExpressionSet :=
  {[ "vendor" := mkMatchExpression MatchIn ["X"] ]}.

Definition cores_rule : MatchExpressionSet :=
  {[ "cpu.cores" := mkMatchExpression MatchGt ["4"] ]}.

Definition two_entry_rule : MatchExpressionSet :=
  {[ "a" := mkMatchExpression MatchIn ["x"];
     "b" := mkMatchExpression MatchGt ["4"] ]}.

Definition presence_rule : MatchExpressionSet :=
  {[ "a" := mkMatchExpression MatchExists [];
     "b" := mkMatchExpression MatchDoesNotExist [] ]}.

Definition record (vendor : string) : InstanceFeature :=
  mkInstanceFeature {[ "vendor" := vendor ]}.

Definition ab (a b : string) : gmap string string :=
  {[ "a" := a; "b" := b ]}.

Definition ab_keys : gmap string Nil := {[ "a" := (); "b" := () ]}.

Definition element (name value : string) : MatchedElement :=
  {[ "Name" := name; "Value" := value ]}.

(** The operand counts that the evaluator accepts, operator by operator
    (the [len(m.Value)] tests of [evaluateMatchExpression]). *)
Definition arity_ok (op : MatchOp) (n : nat) : bool :=
  match op with
  | MatchAny | MatchExists | MatchDoesNotExist | MatchIsTrue | MatchIsFalse =>
      (n =? 0)%nat
  | MatchIn | MatchNotIn | MatchInRegexp => negb (n =? 0)%nat
  | MatchGt | MatchLt => (n =? 1)%nat
  | MatchGtLt => (n =? 2)%nat
  | UnknownOp _ => true
  end.

(** The names of the matched elements of a result, in their order. *)
Definition names_of (r : Matched) : option (list string) :=
  match elements_of r with
  | None => None
  | Some x => Some ((λ a, index a "Name") <$> x)
  end.

(** The set of keys of a map of values. *)
Definition keys_of (values : gmap string string) : gmap string Nil :=
  (λ _, ()) <$> values.

(** An expression selects a record when it matches one of its attribute
    names. *)
Definition selects `{Regexp} (m : MatchExpression)
    (values : gmap string string) : Prop :=
  map_Exists (λ k _, evaluateMatchExpression m true k = (true, None)) values.

#[global] Instance selects_dec `{Regexp} m values : Decision (selects m values).
Proof. unfold selects. apply _. Defined.

(** ** The order of Go strings *)

Lemma ltb_leb (a b : string) : (a <? b)%string = negb (b <=? a)%string.
Proof.
  unfold String.ltb, String.leb. rewrite (String.compare_antisym a b).
  by destruct (String.compare b a).
Qed.

Lemma ltb_false_le (a b : string) :
  (a <? b)%string = false ↔ String.le b a.
Proof.
  rewrite ltb_leb. unfold String.le.
  destruct (b <=? a)%string; simpl; split; try done.
Qed.

Lemma ltb_true_lt (a b : string) :
  (a <? b)%string = true ↔ String.le a b ∧ a ≠ b.
Proof.
  split.
  - intros Hlt. split.
    + destruct (total String.le a b) as [|Hba]; [done|].
      apply ltb_false_le in Hba. congruence.
    + intros ->. assert (String.le b b) as Hbb by done.
      apply ltb_false_le in Hbb. congruence.
  - intros [Hab Hne]. destruct (a <? b)%string eqn:E; [done|].
    apply ltb_false_le in E. destruct Hne. by apply (anti_symm String.le).
Qed.

Lemma less_Name_strict_weak_order : strict_weak_order less_Name.
Proof.
  unfold less_Name. split; [|split].
  - intros a. by apply ltb_false_le.
  - intros a b c [Hab Hne]%ltb_true_lt [Hbc Hne']%ltb_true_lt.
    apply ltb_true_lt. split; [by etrans|].
    intros E. rewrite E in Hab. destruct Hne'. by apply (anti_symm String.le).
  - intros a b c Hab%ltb_false_le Hbc%ltb_false_le.
    apply ltb_false_le. by etrans.
Qed.

(** ** Consequences of the contract of sort.Slice *)

Section SortFacts.
Context `{SO : Sort}.

Lemma sort_Slice_nil {A} (less : A → A → bool) : sort_Slice less [] = [].
Proof. apply Permutation_nil_r. apply sort_Slice_Permutation. Qed.

Lemma le_sorted_strict (x : list MatchedElement) :
  StronglySorted (λ a b, String.le (index a "Name") (index b "Name")) x →
  NoDup ((λ a, index a "Name") <$> x) →
  sorted_by_Name x.
Proof.
  unfold sorted_by_Name.
  induction 1 as [|a x Hx IH Ha]; intros Hnd; [constructor|].
  rewrite fmap_cons in Hnd. apply NoDup_cons in Hnd as [Hnotin Hnd].
  constructor; [by apply IH|].
  rewrite Forall_forall in Ha. apply Forall_forall. intros b Hb.
  apply ltb_true_lt. split; [by apply Ha|].
  intros E. apply Hnotin. rewrite E. apply list_elem_of_fmap. eauto.
Qed.

Lemma sort_by_Name_sorted (x : list MatchedElement) :
  NoDup ((λ a, index a "Name") <$> x) →
  sorted_by_Name (sort_Slice less_Name x).
Proof.
  intros Hnd. apply le_sorted_strict.
  - apply Sorted.Sorted_StronglySorted.
    + intros a b c Hab Hbc. by etrans.
    + eapply Sorted_ind with
        (P := Sorted (λ a b, String.le (index a "Name") (index b "Name")));
        [constructor| |apply sort_Slice_Sorted, less_Name_strict_weak_order].
      intros a l _ IH Hhd. constructor; [done|].
      destruct Hhd as [|b l Hb]; constructor. by apply ltb_false_le.
  - by rewrite (sort_Slice_Permutation less_Name x).
Qed.

Lemma sorted_by_Name_unique (x y : list MatchedElement) :
  sorted_by_Name x → sorted_by_Name y → x ≡ₚ y → x = y.
Proof.
  apply StronglySorted_unique_strong.
  intros a b _ _ [Hab _]%ltb_true_lt [Hba Hne]%ltb_true_lt.
  destruct Hne. by apply (anti_symm String.le).
Qed.

Lemma sort_by_Name_Permutation (x y : list MatchedElement) :
  NoDup ((λ a, index a "Name") <$> x) → x ≡ₚ y →
  sort_Slice less_Name x = sort_Slice less_Name y.
Proof.
  intros Hnd Hxy. apply sorted_by_Name_unique.
  - by apply sort_by_Name_sorted.
  - apply sort_by_Name_sorted. by rewrite <- Hxy.
  - by rewrite !sort_Slice_Permutation.
Qed.

End SortFacts.

(** Merge sort meets the contract. *)
Lemma merge_sort_Slice_Sorted {A} (less : A → A → bool) (x : list A) :
  strict_weak_order less →
  Sorted (λ a b, less b a = false) (merge_sort_Slice less x).
Proof.
  intros (Hirr & Htr & _). unfold merge_sort_Slice.
  assert (Total (λ a b : A, less b a = false)) as Htotal.
  { intros a b. destruct (less b a) eqn:Hba; [|by left]. right.
    destruct (less a b) eqn:Hab; [|done].
    by rewrite <- (Hirr a), (Htr a b a). }
  apply (Sorted_merge_sort _).
Qed.

#[global] Instance MergeSort : Sort := {|
  sort_Slice := @merge_sort_Slice;
  sort_Slice_Permutation := λ A less, merge_sort_Permutation _;
  sort_Slice_Sorted := @merge_sort_Slice_Sorted
|}.

(** ** The scalar evaluator *)

Section Scalar.
Context `{RE : Regexp}.

(** C1.  For each of the operators In, NotIn, InRegexp, Gt, Lt, GtLt, IsTrue
    and IsFalse, an absent candidate ([valid = false]) evaluates to
    [(false, nil)], whatever the candidate value and whatever the operands:
    no arity, number, regexp or range error is reported. *)
Theorem absent_candidate_never_matches (m : MatchExpression) (value : string) :
  value_based (Op m) = true →
  evaluateMatchExpression m false value = (false, None).
Proof.
  destruct m as [op vs]. unfold evaluateMatchExpression. simpl.
  by destruct op.
Qed.

(** C2, as amended.  A GtLt expression whose two operands parse as integers
    with [operand[0] >= operand[1]] evaluates to the InvalidRange error when
    the candidate is present and its value parses as an integer. *)
Theorem inverted_range_is_an_error (m : MatchExpression) (value v0 v1 : string)
    (v lr0 lr1 : Z) :
  Op m = MatchGtLt →
  Value m = [v0; v1] →
  Atoi v0 = Some lr0 →
  Atoi v1 = Some lr1 →
  lr0 >= lr1 →
  Atoi value = Some v →
  evaluateMatchExpression m true value
    = (false, Some (InvalidRange MatchGtLt [v0; v1])).
Proof.
  destruct m as [op vs]. simpl. intros -> -> H0 H1 Hge Hv.
  unfold evaluateMatchExpression, Sprintf_v. simpl.
  rewrite Hv, H0, H1.
  destruct (lr0 >=? lr1) eqn:E; [done|]. lia.
Qed.

(** C4.  For GtLt with exactly two operands that parse as integers
    [lo < hi] and a present candidate that parses as the integer [v], the
    evaluation succeeds and matches exactly when [lo < v < hi]. *)
Theorem gtlt_is_the_open_interval (m : MatchExpression) (value v0 v1 : string)
    (v lo hi : Z) :
  Op m = MatchGtLt →
  Value m = [v0; v1] →
  Atoi v0 = Some lo →
  Atoi v1 = Some hi →
  Atoi value = Some v →
  lo < hi →
  ∃ matched, evaluateMatchExpression m true value = (matched, None)
             ∧ (matched = true ↔ lo < v < hi).
Proof.
  destruct m as [op vs]. simpl. intros -> -> H0 H1 Hv Hlt.
  unfold evaluateMatchExpression, Sprintf_v. simpl.
  rewrite Hv, H0, H1.
  destruct (lo >=? hi) eqn:E; [lia|].
  eexists. split; [done|].
  rewrite andb_true_iff. lia.
Qed.

(** The loop that compiles the operands fails exactly when some operand
    does not compile. *)
Lemma compile_all_None (vs : list string) :
  compile_all vs = None ↔ ∃ v, v ∈ vs ∧ Compile v = None.
Proof.
  induction vs as [|v vs IH]; simpl.
  - split; [done|]. intros (v & Hv & _). by apply elem_of_nil in Hv.
  - destruct (Compile v) as [re|] eqn:Hc.
    + destruct (compile_all vs) as [res|].
      * split; [done|]. intros (w & Hw & Hn).
        apply elem_of_cons in Hw as [->|Hw]; [congruence|].
        destruct IH as [_ IH]. discriminate IH. eauto.
      * split; [|done]. intros _. destruct IH as [(w & Hw & Hn) _]; [done|].
        exists w. split; [by right|done].
    + split; [|done]. intros _. exists v. split; [by left|done].
Qed.

Lemma compile_all_Some (vs : list string) (res : list regexp) :
  compile_all vs = Some res →
  ∀ re, re ∈ res ↔ ∃ v, v ∈ vs ∧ Compile v = Some re.
Proof.
  revert res. induction vs as [|v vs IH]; simpl; intros res.
  - intros [= <-] re. split; [by intros ?%elem_of_nil|].
    by intros (v & ?%elem_of_nil & _).
  - destruct (Compile v) as [r|] eqn:Hc; [|done].
    destruct (compile_all vs) as [rs|]; [|done].
    intros [= <-] re. rewrite elem_of_cons, (IH rs eq_refl re). split.
    + intros [->|(w & Hw & Hre)].
      * exists v. split; [by left|done].
      * exists w. split; [by right|done].
    + intros (w & Hw & Hre). apply elem_of_cons in Hw as [->|Hw].
      * left. congruence.
      * right. eauto.
Qed.

(** C6.  For InRegexp with a non-empty operand list and a present candidate:
    when some operand does not compile the result is the InvalidRegexp
    error, whatever the other operands would have matched; when all
    operands compile there is no error, and the candidate matches exactly
    when one of the compiled patterns matches its value. *)
Theorem inregexp_compiles_every_operand (m : MatchExpression) (value : string) :
  Op m = MatchInRegexp →
  Value m ≠ [] →
  ((∃ v, v ∈ Value m ∧ Compile v = None) →
     evaluateMatchExpression m true value
       = (false, Some (InvalidRegexp MatchInRegexp (Value m))))
  ∧ ((∀ v, v ∈ Value m → is_Some (Compile v)) →
     ∃ matched, evaluateMatchExpression m true value = (matched, None)
       ∧ (matched = true ↔
            ∃ v re, v ∈ Value m ∧ Compile v = Some re
                    ∧ MatchString re value = true)).
Proof.
  destruct m as [op vs]. simpl. intros -> Hne.
  unfold evaluateMatchExpression, Sprintf_v. simpl.
  destruct vs as [|v0 vs]; [done|].
  change (length (v0 :: vs) =? 0)%nat with false. cbv iota.
  split.
  - intros Hbad%compile_all_None. by rewrite Hbad.
  - intros Hall.
    destruct (compile_all (v0 :: vs)) as [res|] eqn:Hc.
    2:{ apply compile_all_None in Hc as (w & Hw & Hn).
        destruct (Hall w Hw) as [re Hre]. congruence. }
    pose proof (compile_all_Some _ _ Hc) as Hres.
    destruct (existsb (λ re, MatchString re value) res) eqn:Hex.
    + exists true. split; [done|]. split; [|done]. intros _.
      apply existsb_exists in Hex as (re & Hin & Hm).
      apply list_elem_of_In, Hres in Hin as (w & Hw & Hre). eauto.
    + exists false. split; [done|]. split; [done|].
      intros (w & re & Hw & Hre & Hm).
      assert (existsb (λ re, MatchString re value) res = true) as E.
      { apply existsb_exists. exists re. split; [|done].
        apply list_elem_of_In, Hres. eauto. }
      congruence.
Qed.

End Scalar.

Lemma absent_candidate_never_matches_witness :
  evaluateMatchExpression (RE := LiteralRegexp)
    (mkMatchExpression MatchGtLt ["5"; "x"; "("]) false "abc" = (false, None).
Proof.
  apply (absent_candidate_never_matches (RE := LiteralRegexp)
           (mkMatchExpression MatchGtLt ["5"; "x"; "("]) "abc").
  reflexivity.
Defined.

(** C2 as stated fails: with an absent candidate the inverted range is not
    reported, and with a candidate that is not a number the error is
    NotANumber. *)
Lemma inverted_range_not_always_reported :
  evaluateMatchExpression (RE := LiteralRegexp)
    (mkMatchExpression MatchGtLt ["5"; "1"]) false "3" = (false, None)
  ∧ evaluateMatchExpression (RE := LiteralRegexp)
      (mkMatchExpression MatchGtLt ["5"; "1"]) true "three"
    = (false, Some (NotANumber "three")).
Proof. split; reflexivity. Qed.

Lemma inverted_range_is_an_error_witness :
  evaluateMatchExpression (RE := LiteralRegexp)
    (mkMatchExpression MatchGtLt ["5"; "1"]) true "3"
  = (false, Some (InvalidRange MatchGtLt ["5"; "1"])).
Proof.
  apply (inverted_range_is_an_error (RE := LiteralRegexp)
           (mkMatchExpression MatchGtLt ["5"; "1"]) "3" "5" "1" 3 5 1);
    try reflexivity.
  lia.
Defined.

Lemma gtlt_is_the_open_interval_witness :
  ∃ matched,
    evaluateMatchExpression (RE := LiteralRegexp)
      (mkMatchExpression MatchGtLt ["1"; "5"]) true "3" = (matched, None)
    ∧ (matched = true ↔ 1 < 3 < 5).
Proof.
  apply (gtlt_is_the_open_interval (RE := LiteralRegexp)
           (mkMatchExpression MatchGtLt ["1"; "5"]) "3" "1" "5" 3 1 5);
    reflexivity.
Defined.

(** Scenario 2 of the specification. *)
Example gtlt_1_5 :
  let m := mkMatchExpression MatchGtLt ["1"; "5"] in
  evaluateMatchExpression (RE := LiteralRegexp) m true "3" = (true, None)
  ∧ evaluateMatchExpression (RE := LiteralRegexp) m true "5" = (false, None)
  ∧ evaluateMatchExpression (RE := LiteralRegexp) m true "0" = (false, None).
Proof. repeat split; reflexivity. Qed.

Lemma inregexp_compiles_every_operand_witness :
  evaluateMatchExpression (RE := LiteralRegexp)
    (mkMatchExpression MatchInRegexp ["zz"; "("]) true "abc"
  = (false, Some (InvalidRegexp MatchInRegexp ["zz"; "("]))
  ∧ ∃ matched,
      evaluateMatchExpression (RE := LiteralRegexp)
        (mkMatchExpression MatchInRegexp ["zz"; "bc"]) true "abc"
      = (matched, None)
      ∧ (matched = true ↔
           ∃ v re, v ∈ ["zz"; "bc"] ∧ Compile (Regexp := LiteralRegexp) v = Some re
                   ∧ MatchString (Regexp := LiteralRegexp) re "abc" = true).
Proof.
  split.
  - apply (inregexp_compiles_every_operand (RE := LiteralRegexp)
             (mkMatchExpression MatchInRegexp ["zz"; "("]) "abc");
      [reflexivity | discriminate |].
    exists "(". split; [|reflexivity]. right. left.
  - apply (inregexp_compiles_every_operand (RE := LiteralRegexp)
             (mkMatchExpression MatchInRegexp ["zz"; "bc"]) "abc");
      [reflexivity | discriminate |].
    intros v Hv. simpl in Hv.
    apply elem_of_cons in Hv as [->|Hv]; [by eexists|].
    apply elem_of_cons in Hv as [->|Hv]; [by eexists|].
    by apply elem_of_nil in Hv.
Defined.

(** ** The presence evaluator *)

(** C3, as amended.  An operator other than Any, Exists and DoesNotExist
    yields the invalid-operator-for-key-match error.  For Any, Exists and
    DoesNotExist the operands are not inspected: whatever they are, the
    result is the one the scalar evaluator gives for the same operator with
    an empty operand list, and it carries no error. *)
Theorem key_match_operators `{RE : Regexp} (m : MatchExpression)
    (name : string) (keys : gmap string Nil) :
  (existence (Op m) = false →
     evaluateMatchExpressionKeys m name keys
       = (false, Some (InvalidOperatorForKeyMatch (Op m))))
  ∧ (existence (Op m) = true →
     (∀ value,
        evaluateMatchExpressionKeys m name keys
          = evaluateMatchExpression (mkMatchExpression (Op m) [])
              (present name keys) value)
     ∧ (evaluateMatchExpressionKeys m name keys).2 = None).
Proof.
  destruct m as [op vs]. unfold evaluateMatchExpressionKeys, present. simpl.
  by destruct op.
Qed.

(** The existence branches of the scalar evaluator do reject operands. *)
Lemma existence_rejects_operands `{RE : Regexp} (m : MatchExpression)
    (valid : bool) (value : string) :
  existence (Op m) = true →
  Value m ≠ [] →
  ∃ err, evaluateMatchExpression m valid value = (false, Some err)
         ∧ is_ArityError err = true.
Proof.
  destruct m as [op [|v vs]]; [done|]. simpl. intros Hop _.
  exists (ArityEmpty op (v :: vs)). by destruct op.
Qed.

(** C3 as stated fails: the key evaluator accepts a non-empty operand list
    that the scalar evaluator rejects. *)
Lemma key_match_accepts_operands :
  evaluateMatchExpressionKeys (mkMatchExpression MatchExists ["x"]) "k"
    {[ "k" := () ]} = (true, None)
  ∧ evaluateMatchExpression (RE := LiteralRegexp)
      (mkMatchExpression MatchExists ["x"]) true "k"
    = (false, Some (ArityEmpty MatchExists ["x"])).
Proof. split; reflexivity. Qed.

Lemma key_match_operators_witness :
  evaluateMatchExpressionKeys (mkMatchExpression MatchGt ["1"]) "k"
    {[ "k" := () ]} = (false, Some (InvalidOperatorForKeyMatch MatchGt))
  ∧ evaluateMatchExpressionKeys (mkMatchExpression MatchExists ["x"]) "k"
      {[ "k" := () ]}
    = evaluateMatchExpression (RE := LiteralRegexp)
        (mkMatchExpression MatchExists []) true "k".
Proof.
  split.
  - apply (key_match_operators (RE := LiteralRegexp)
             (mkMatchExpression MatchGt ["1"]) "k" {[ "k" := () ]}).
    reflexivity.
  - exact (proj1 (proj2 (key_match_operators (RE := LiteralRegexp)
                    (mkMatchExpression MatchExists ["x"]) "k" {[ "k" := () ]})
                  eq_refl) "k").
Defined.

(** ** Ranging over a map *)

Lemma range_ok_forwards {V} : range_ok (@forwards V).
Proof. by intros m. Qed.

Lemma range_ok_backwards {V} : range_ok (@backwards V).
Proof. intros m. apply reverse_Permutation. Qed.

Lemma range_elem_of {V} (rg : MapRange V) (m : gmap string V) n v :
  range_ok rg → (n, v) ∈ rg m ↔ m !! n = Some v.
Proof. intros Hrg. rewrite (Hrg m). apply elem_of_map_to_list. Qed.

Lemma range_NoDup {V} (rg : MapRange V) (m : gmap string V) :
  range_ok rg → NoDup (rg m).*1.
Proof. intros Hrg. rewrite (Hrg m). apply NoDup_fst_map_to_list. Qed.

Lemma range_empty {V} (rg : MapRange V) : range_ok rg → rg ∅ = [].
Proof.
  intros Hrg. apply Permutation_nil_r. by rewrite (Hrg ∅), map_to_list_empty.
Qed.

Lemma range_agree {V} (rg1 rg2 : MapRange V) (m : gmap string V) :
  range_ok rg1 → range_ok rg2 → rg1 m ≡ₚ rg2 m.
Proof. intros H1 H2. by rewrite (H1 m), (H2 m). Qed.

(** ** The loops over a set and over names *)

Section Loops.
Context `{RE : Regexp} `{SO : Sort}.

Lemma MatchGetKeys_loop_shape es keys ret :
  MatchGetKeys_loop es keys ret
  = set_loop (λ n e, evaluateMatchExpressionKeys e n keys)
      (λ n, {[ "Name" := n ]}) es ret.
Proof.
  revert ret. induction es as [|[n e] es IH]; intros ret; simpl; [done|].
  by destruct (evaluateMatchExpressionKeys e n keys) as [[] []].
Qed.

Lemma MatchGetValues_loop_shape es values ret :
  MatchGetValues_loop es values ret
  = set_loop (λ n e, evaluateMatchExpressionValues e n values)
      (λ n, {[ "Name" := n; "Value" := index values n ]}) es ret.
Proof.
  revert ret. induction es as [|[n e] es IH]; intros ret; simpl; [done|].
  by destruct (evaluateMatchExpressionValues e n values) as [[] []].
Qed.

Lemma MatchKeyNames_loop_shape m ks ret :
  MatchKeyNames_loop m ks ret
  = names_loop (λ k (_ : Nil), {[ "Name" := k ]}) m ks ret.
Proof.
  revert ret. induction ks as [|[k v] ks IH]; intros ret; simpl; [done|].
  by destruct (evaluateMatchExpression m true k) as [[] []].
Qed.

Lemma MatchValueNames_loop_shape m kvs ret :
  MatchValueNames_loop m kvs ret
  = names_loop (λ k v, {[ "Name" := k; "Value" := v ]}) m kvs ret.
Proof.
  revert ret. induction kvs as [|[k v] kvs IH]; intros ret; simpl; [done|].
  by destruct (evaluateMatchExpression m true k) as [[] []].
Qed.

Lemma Name_key_element (n : string) :
  index ({[ "Name" := n ]} : MatchedElement) "Name" = n.
Proof. unfold index. by rewrite lookup_singleton_eq. Qed.

Lemma Name_value_element (n v : string) :
  index ({[ "Name" := n; "Value" := v ]} : MatchedElement) "Name" = n.
Proof. unfold index. by rewrite lookup_insert_eq. Qed.

Section SetLoop.
Variable ev : string → MatchExpression → bool * option Error.
Variable elem : string → MatchedElement.
Hypothesis Name_elem : ∀ n, index (elem n) "Name" = n.

Let matches (ne : string * MatchExpression) : Prop :=
  ev ne.1 ne.2 = (true, None).

Lemma set_loop_all es ret :
  Forall matches es →
  set_loop ev elem es ret
  = (true, Some (sort_Slice less_Name (ret ++ (elem ∘ fst <$> es))), None).
Proof.
  intros Hall. revert ret.
  induction Hall as [|[n e] es Hm _ IH]; intros ret; simpl.
  - by rewrite app_nil_r.
  - unfold matches in Hm. simpl in Hm. rewrite Hm, IH.
    by rewrite <- app_assoc.
Qed.

Lemma set_loop_not_all es ret :
  ¬ Forall matches es →
  ∃ err, set_loop ev elem es ret = (false, None, err).
Proof.
  revert ret. induction es as [|[n e] es IH]; intros ret Hnot; simpl.
  - destruct Hnot. constructor.
  - destruct (ev n e) as [[] [err|]] eqn:Hev; [by eauto| |by eauto..].
    apply IH. intros Hall. apply Hnot. by constructor.
Qed.

Lemma set_loop_clean es ret :
  Forall (λ ne, (ev ne.1 ne.2).2 = None) es →
  Exists (λ ne, (ev ne.1 ne.2).1 = false) es →
  set_loop ev elem es ret = (false, None, None).
Proof.
  intros Hok. revert ret.
  induction Hok as [|[n e] es Hne _ IH]; intros ret Hex; simpl.
  - by apply Exists_nil in Hex.
  - simpl in Hne. destruct (ev n e) as [[] [err|]] eqn:Hev; try done.
    apply Exists_cons in Hex as [Hex|Hex]; [|by apply IH].
    simpl in Hex. by rewrite Hev in Hex.
Qed.

Lemma Name_elems (es : list (string * MatchExpression)) :
  (λ a, index a "Name") <$> (elem ∘ fst <$> es) = es.*1.
Proof.
  rewrite <- list_fmap_compose. apply list_fmap_ext.
  intros _ [n e] _. simpl. apply Name_elem.
Qed.

Lemma set_loop_sorted es x :
  NoDup es.*1 →
  elements_of (set_loop ev elem es []) = Some x →
  sorted_by_Name x.
Proof.
  intros Hnd. destruct (decide (Forall matches es)) as [Hall|Hnot].
  - rewrite (set_loop_all _ _ Hall). intros [= <-].
    apply sort_by_Name_sorted. simpl. by rewrite Name_elems.
  - destruct (set_loop_not_all es [] Hnot) as [err ->]. done.
Qed.

Lemma set_loop_order es1 es2 :
  NoDup es1.*1 → es1 ≡ₚ es2 →
  elements_of (set_loop ev elem es1 []) = elements_of (set_loop ev elem es2 []).
Proof.
  intros Hnd Hperm. destruct (decide (Forall matches es1)) as [Hall|Hnot].
  - assert (Forall matches es2) as Hall2 by by rewrite <- Hperm.
    rewrite (set_loop_all _ _ Hall), (set_loop_all _ _ Hall2).
    unfold elements_of. simpl. f_equal.
    apply sort_by_Name_Permutation; simpl; [by rewrite Name_elems|].
    by rewrite Hperm.
  - assert (¬ Forall matches es2) as Hnot2 by by rewrite <- Hperm.
    destruct (set_loop_not_all es1 [] Hnot) as [err1 ->].
    destruct (set_loop_not_all es2 [] Hnot2) as [err2 ->]. done.
Qed.

End SetLoop.

Section NamesLoop.
Context {V : Type}.
Variable elem : string → V → MatchedElement.
Hypothesis Name_elem : ∀ k v, index (elem k v) "Name" = k.
Variable m : MatchExpression.

Local Abbreviation clean :=
  (λ kv : string * V, (evaluateMatchExpression m true kv.1).2 = None).
Local Abbreviation selected :=
  (λ kv : string * V, (evaluateMatchExpression m true kv.1).1 = true).

Lemma names_loop_clean kvs ret :
  Forall clean kvs →
  names_loop elem m kvs ret
  = let r := sort_Slice less_Name
               (ret ++ (uncurry elem <$> filter selected kvs)) in
    ((0 <? length r)%nat, Some r, None).
Proof.
  intros Hall. revert ret.
  induction Hall as [|[k v] kvs Hc _ IH]; intros ret; simpl.
  - by rewrite app_nil_r.
  - simpl in Hc.
    destruct (evaluateMatchExpression m true k) as [[] [err|]] eqn:Hev;
      try done.
    + rewrite IH, filter_cons_True by (simpl; by rewrite Hev).
      simpl. by rewrite <- app_assoc.
    + rewrite IH, filter_cons_False by (simpl; by rewrite Hev). done.
Qed.

Lemma names_loop_error kvs ret :
  ¬ Forall clean kvs →
  ∃ err, names_loop elem m kvs ret = (false, None, Some err).
Proof.
  revert ret. induction kvs as [|[k v] kvs IH]; intros ret Hnot; simpl.
  - destruct Hnot. constructor.
  - destruct (evaluateMatchExpression m true k) as [[] [err|]] eqn:Hev;
      [by eauto| |by eauto|].
    + apply IH. intros Hall. apply Hnot. constructor; [|done].
      simpl. by rewrite Hev.
    + apply IH. intros Hall. apply Hnot. constructor; [|done].
      simpl. by rewrite Hev.
Qed.

Lemma Name_selected (kvs : list (string * V)) :
  NoDup kvs.*1 →
  NoDup ((λ a, index a "Name") <$> (uncurry elem <$> filter selected kvs)).
Proof.
  intros Hnd. rewrite <- list_fmap_compose.
  rewrite (list_fmap_ext _ fst (filter selected kvs))
    by (intros _ [k v] _; apply Name_elem).
  eapply sublist_NoDup; [done|].
  apply fmap_sublist, sublist_filter.
Qed.

Lemma names_loop_sorted kvs x :
  NoDup kvs.*1 →
  elements_of (names_loop elem m kvs []) = Some x →
  sorted_by_Name x.
Proof.
  intros Hnd. destruct (decide (Forall clean kvs)) as [Hall|Hnot].
  - rewrite (names_loop_clean _ _ Hall). intros [= <-].
    apply sort_by_Name_sorted. simpl. by apply Name_selected.
  - destruct (names_loop_error kvs [] Hnot) as [err ->]. done.
Qed.

Lemma names_loop_order kvs1 kvs2 :
  NoDup kvs1.*1 → kvs1 ≡ₚ kvs2 →
  elements_of (names_loop elem m kvs1 [])
  = elements_of (names_loop elem m kvs2 []).
Proof.
  intros Hnd Hperm. destruct (decide (Forall clean kvs1)) as [Hall|Hnot].
  - assert (Forall clean kvs2) as Hall2 by by rewrite <- Hperm.
    rewrite (names_loop_clean _ _ Hall), (names_loop_clean _ _ Hall2).
    unfold elements_of. simpl. f_equal.
    apply sort_by_Name_Permutation; [by apply Name_selected|].
    by rewrite Hperm.
  - assert (¬ Forall clean kvs2) as Hnot2 by by rewrite <- Hperm.
    destruct (names_loop_error kvs1 [] Hnot) as [err1 ->].
    destruct (names_loop_error kvs2 [] Hnot2) as [err2 ->]. done.
Qed.

End NamesLoop.

End Loops.

(** ** The named-set evaluators *)

Section NamedSets.
Context `{RE : Regexp} `{SO : Sort}.

(** C5.  When every entry of the set evaluates without error against the
    candidate data and some entry does not match, [MatchGetValues] and
    [MatchGetKeys] return [(false, nil, nil)], in whatever order the set is
    ranged over. *)
Theorem clean_non_match (rg : MapRange MatchExpression)
    (m : MatchExpressionSet) (values : gmap string string)
    (keys : gmap string Nil) :
  range_ok rg →
  ((∀ n e, m !! n = Some e →
           (evaluateMatchExpressionValues e n values).2 = None) →
   (∃ n e, m !! n = Some e
           ∧ (evaluateMatchExpressionValues e n values).1 = false) →
   MatchGetValues rg m values = (false, None, None))
  ∧ ((∀ n e, m !! n = Some e →
             (evaluateMatchExpressionKeys e n keys).2 = None) →
     (∃ n e, m !! n = Some e
             ∧ (evaluateMatchExpressionKeys e n keys).1 = false) →
     MatchGetKeys rg m keys = (false, None, None)).
Proof.
  intros Hrg. split; intros Hok (n & e & Hne & Hno).
  - unfold MatchGetValues. rewrite MatchGetValues_loop_shape.
    apply set_loop_clean.
    + apply Forall_forall. intros [n' e'] Hin%range_elem_of; [|done].
      by apply Hok.
    + apply Exists_exists. exists (n, e). split; [|done].
      by apply range_elem_of.
  - unfold MatchGetKeys. rewrite MatchGetKeys_loop_shape.
    apply set_loop_clean.
    + apply Forall_forall. intros [n' e'] Hin%range_elem_of; [|done].
      by apply Hok.
    + apply Exists_exists. exists (n, e). split; [|done].
      by apply range_elem_of.
Qed.

(** C8.  Two evaluations of the same rule on the same data return the same
    matched-element list, whatever orders the maps are ranged over, and a
    list returned by [MatchGetValues], [MatchGetKeys], [MatchValueNames] or
    [MatchKeyNames] is sorted ascending by the "Name" field. *)
Theorem matched_elements_deterministic_and_sorted
    (rg1 rg2 : MapRange MatchExpression) (rv1 rv2 : MapRange string)
    (rk1 rk2 : MapRange Nil) (m : MatchExpressionSet) (e : MatchExpression)
    (values : gmap string string) (keys : gmap string Nil) :
  range_ok rg1 → range_ok rg2 → range_ok rv1 → range_ok rv2 →
  range_ok rk1 → range_ok rk2 →
  (elements_of (MatchGetValues rg1 m values)
     = elements_of (MatchGetValues rg2 m values)
   ∧ elements_of (MatchGetKeys rg1 m keys)
     = elements_of (MatchGetKeys rg2 m keys)
   ∧ elements_of (MatchValueNames rv1 e values)
     = elements_of (MatchValueNames rv2 e values)
   ∧ elements_of (MatchKeyNames rk1 e keys)
     = elements_of (MatchKeyNames rk2 e keys))
  ∧ (∀ x,
       elements_of (MatchGetValues rg1 m values) = Some x
       ∨ elements_of (MatchGetKeys rg1 m keys) = Some x
       ∨ elements_of (MatchValueNames rv1 e values) = Some x
       ∨ elements_of (MatchKeyNames rk1 e keys) = Some x →
       sorted_by_Name x).
Proof.
  intros Hg1 Hg2 Hv1 Hv2 Hk1 Hk2.
  unfold MatchGetValues, MatchGetKeys, MatchValueNames, MatchKeyNames.
  rewrite !MatchGetValues_loop_shape, !MatchGetKeys_loop_shape,
    !MatchValueNames_loop_shape, !MatchKeyNames_loop_shape.
  split; [repeat split|].
  - apply set_loop_order;
      [intros; apply Name_value_element|by apply range_NoDup
      |by apply range_agree].
  - apply set_loop_order;
      [intros; apply Name_key_element|by apply range_NoDup
      |by apply range_agree].
  - apply names_loop_order;
      [intros; apply Name_value_element|by apply range_NoDup
      |by apply range_agree].
  - apply names_loop_order;
      [intros; apply Name_key_element|by apply range_NoDup
      |by apply range_agree].
  - intros x [Hx|[Hx|[Hx|Hx]]].
    + eapply set_loop_sorted; [| |exact Hx];
        [intros; apply Name_value_element|by apply range_NoDup].
    + eapply set_loop_sorted; [| |exact Hx];
        [intros; apply Name_key_element|by apply range_NoDup].
    + eapply names_loop_sorted; [| |exact Hx];
        [intros; apply Name_value_element|by apply range_NoDup].
    + eapply names_loop_sorted; [| |exact Hx];
        [intros; apply Name_key_element|by apply range_NoDup].
Qed.

(** C9.  An empty MatchExpressionSet matches any set of keys and any map of
    values: [MatchGetKeys] and [MatchGetValues] return [true], the empty
    (non-nil) list and no error. *)
Theorem empty_set_matches (rg : MapRange MatchExpression)
    (keys : gmap string Nil) (values : gmap string string) :
  range_ok rg →
  MatchGetKeys rg ∅ keys = (true, Some [], None)
  ∧ MatchGetValues rg ∅ values = (true, Some [], None).
Proof.
  intros Hrg. unfold MatchGetKeys, MatchGetValues.
  rewrite (range_empty rg Hrg). simpl. by rewrite sort_Slice_nil.
Qed.

(** C10.  [MatchKeys] returns the boolean and the error of [MatchGetKeys],
    [MatchValues] those of [MatchGetValues], and [MatchInstances] returns
    the error of [MatchGetInstances] and [true] exactly when the slice
    returned by [MatchGetInstances] is not empty. *)
Theorem boolean_entry_points_project (rg : MapRange MatchExpression)
    (rgs : nat → MapRange MatchExpression) (m : MatchExpressionSet)
    (keys : gmap string Nil) (values : gmap string string)
    (instances : list InstanceFeature) :
  MatchKeys rg m keys
    = ((MatchGetKeys rg m keys).1.1, (MatchGetKeys rg m keys).2)
  ∧ MatchValues rg m values
    = ((MatchGetValues rg m values).1.1, (MatchGetValues rg m values).2)
  ∧ (MatchInstances rgs m instances).2 = (MatchGetInstances rgs m instances).2
  ∧ ((MatchInstances rgs m instances).1 = true
     ↔ ∃ a x, (MatchGetInstances rgs m instances).1 = Some (a :: x)).
Proof.
  unfold MatchKeys, MatchValues, MatchInstances.
  destruct (MatchGetKeys rg m keys) as [[bk xk] ek].
  destruct (MatchGetValues rg m values) as [[bv xv] ev].
  destruct (MatchGetInstances rgs m instances) as [[[|a x]|] err]; simpl.
  - repeat split; try done. by intros (a & x & ?).
  - repeat split; try done. eauto.
  - repeat split; try done. by intros (a & x & ?).
Qed.

End NamedSets.

(** ** The record-set evaluator *)

Section RecordSets.
Context `{RE : Regexp} `{SO : Sort}.

(** A run of [MatchValues] answers [true] exactly on the records that
    satisfy the set, and then without error. *)
Lemma MatchValues_satisfies (rg : MapRange MatchExpression)
    (m : MatchExpressionSet) (values : gmap string string) :
  range_ok rg →
  (satisfies m values → MatchValues rg m values = (true, None))
  ∧ (¬ satisfies m values → (MatchValues rg m values).1 = false).
Proof.
  intros Hrg. unfold MatchValues, MatchGetValues, satisfies.
  rewrite MatchGetValues_loop_shape. split; intros Hsat.
  - rewrite set_loop_all; [done|].
    apply Forall_forall. intros [n e] Hin%range_elem_of; [|done].
    by apply Hsat.
  - edestruct set_loop_not_all as [err ->]; [|done].
    intros Hall. apply Hsat. intros n e Hne.
    rewrite Forall_forall in Hall.
    by apply (Hall (n, e)), range_elem_of.
Qed.

(** A set whose entries all evaluate without error on a record makes no run
    of [MatchValues] on that record fail. *)
Lemma MatchValues_no_error (rg : MapRange MatchExpression)
    (m : MatchExpressionSet) (values : gmap string string) :
  range_ok rg →
  (∀ n e, m !! n = Some e →
          (evaluateMatchExpressionValues e n values).2 = None) →
  (MatchValues rg m values).2 = None.
Proof.
  intros Hrg Hok. destruct (decide (satisfies m values)) as [Hsat|Hnot].
  - by rewrite (proj1 (MatchValues_satisfies rg m values Hrg) Hsat).
  - apply map_not_Forall in Hnot as (n & e & Hne & Hno); [|apply _].
    unfold MatchValues, MatchGetValues. rewrite MatchGetValues_loop_shape.
    rewrite set_loop_clean; [done| |].
    + apply Forall_forall. intros [n' e'] Hin%range_elem_of; [|done].
      by apply Hok.
    + apply Exists_exists. exists (n, e). split; [by apply range_elem_of|].
      specialize (Hok n e Hne). simpl.
      destruct (evaluateMatchExpressionValues e n values) as [[] [err|]]; done.
Qed.

Lemma MatchGetInstances_loop_clean (rgs : nat → MapRange MatchExpression)
    (m : MatchExpressionSet) (instances : list InstanceFeature)
    (ret : list MatchedElement) :
  (∀ j, range_ok (rgs j)) →
  (∀ j i, instances !! j = Some i →
          (MatchValues (rgs j) m (Attributes i)).2 = None) →
  MatchGetInstances_loop rgs m instances ret
  = (Some (ret ++ (Attributes <$>
                     filter (λ i, satisfies m (Attributes i)) instances))%list,
     None).
Proof.
  revert rgs ret. induction instances as [|i instances IH];
    intros rgs ret Hrg Hok; simpl.
  - by rewrite app_nil_r.
  - pose proof (Hok 0%nat i eq_refl) as H0.
    destruct (MatchValues_satisfies (rgs 0%nat) m (Attributes i) (Hrg _))
      as [Hyes Hno].
    assert (∀ j i', instances !! j = Some i' →
              (MatchValues ((rgs ∘ S) j) m (Attributes i')).2 = None) as Hok'
      by (intros j i' Hj; by apply (Hok (S j))).
    destruct (decide (satisfies m (Attributes i))) as [Hsat|Hnot].
    + rewrite (Hyes Hsat), filter_cons_True by done.
      rewrite IH; [|by intros j; apply Hrg|done].
      simpl. by rewrite <- app_assoc.
    + specialize (Hno Hnot). rewrite filter_cons_False by done.
      destruct (MatchValues (rgs 0%nat) m (Attributes i)) as [[] [err|]];
        try done.
      apply IH; [by intros j; apply Hrg|done].
Qed.

Lemma MatchGetInstances_loop_error (rgs : nat → MapRange MatchExpression)
    (m : MatchExpressionSet) (instances : list InstanceFeature)
    (ret : list MatchedElement) :
  (∃ j i, instances !! j = Some i
          ∧ is_Some (MatchValues (rgs j) m (Attributes i)).2) →
  ∃ j i err,
    instances !! j = Some i
    ∧ (MatchValues (rgs j) m (Attributes i)).2 = Some err
    ∧ (∀ j' i', (j' < j)%nat → instances !! j' = Some i' →
                (MatchValues (rgs j') m (Attributes i')).2 = None)
    ∧ MatchGetInstances_loop rgs m instances ret = (None, Some err).
Proof.
  revert rgs ret. induction instances as [|i0 instances IH];
    intros rgs ret (j & i & Hj & Herr).
  - done.
  - simpl.
    destruct (MatchValues (rgs 0%nat) m (Attributes i0)) as [b [err|]] eqn:H0.
    + exists 0%nat, i0, err. rewrite H0. repeat split; try done.
      * intros j' i' Hlt. lia.
      * by destruct b.
    + destruct j as [|j]; simpl in Hj.
      { injection Hj as <-. rewrite H0 in Herr. by destruct Herr. }
      destruct (IH (rgs ∘ S) (if b then (ret ++ [Attributes i0])%list else ret)
                  (ex_intro _ j (ex_intro _ i (conj Hj Herr))))
        as (j1 & i1 & err & Hj1 & He1 & Hfirst & Hloop).
      exists (S j1), i1, err. repeat split; try done.
      * intros [|j'] i' Hlt Hj'; simpl in Hj'.
        -- injection Hj' as <-. by rewrite H0.
        -- apply (Hfirst j' i'); [lia|done].
      * by destruct b.
Qed.

(** C7.  When no record's evaluation fails, [MatchGetInstances] returns the
    attribute maps of exactly the records that satisfy the set, in the order
    of the input, and [MatchInstances] returns [true] exactly when some
    record satisfies the set.  When the evaluation of some record fails, both
    return the error of a failed record, [MatchGetInstances] with a nil
    slice and [MatchInstances] with [false]. *)
Theorem instances_filtered_in_order (rgs : nat → MapRange MatchExpression)
    (m : MatchExpressionSet) (instances : list InstanceFeature) :
  (∀ j, range_ok (rgs j)) →
  ((∀ j i, instances !! j = Some i →
           (MatchValues (rgs j) m (Attributes i)).2 = None) →
   MatchGetInstances rgs m instances
     = (Some (Attributes <$>
                filter (λ i, satisfies m (Attributes i)) instances), None)
   ∧ (MatchInstances rgs m instances).2 = None
   ∧ ((MatchInstances rgs m instances).1 = true
      ↔ ∃ i, i ∈ instances ∧ satisfies m (Attributes i)))
  ∧ ((∃ j i, instances !! j = Some i
             ∧ is_Some (MatchValues (rgs j) m (Attributes i)).2) →
     ∃ j i err,
       instances !! j = Some i
       ∧ (MatchValues (rgs j) m (Attributes i)).2 = Some err
       ∧ MatchGetInstances rgs m instances = (None, Some err)
       ∧ MatchInstances rgs m instances = (false, Some err)).
Proof.
  intros Hrg. split.
  - intros Hok. unfold MatchInstances, MatchGetInstances.
    rewrite (MatchGetInstances_loop_clean rgs m instances [] Hrg Hok).
    simpl. split; [done|]. split; [done|].
    rewrite length_fmap, Nat.ltb_lt. split.
    + intros Hlen.
      destruct (filter (λ i, satisfies m (Attributes i)) instances)
        as [|i l] eqn:Hf; [simpl in Hlen; lia|].
      assert (i ∈ filter (λ i, satisfies m (Attributes i)) instances) as Hin
        by (rewrite Hf; left).
      apply list_elem_of_filter in Hin as [Hsat Hin]. eauto.
    + intros (i & Hin & Hsat).
      assert (i ∈ filter (λ i, satisfies m (Attributes i)) instances) as Hin'
        by by apply list_elem_of_filter.
      destruct (filter (λ i, satisfies m (Attributes i)) instances);
        [by apply elem_of_nil in Hin'|simpl; lia].
  - intros Hex. unfold MatchInstances, MatchGetInstances.
    destruct (MatchGetInstances_loop_error rgs m instances [] Hex)
      as (j & i & err & Hj & He & _ & ->).
    exists j, i, err. done.
Qed.

End RecordSets.

(** ** Closed instances *)

(** A hypothesis over the entries of a closed map is decided by running
    through the map. *)
Ltac by_entries :=
  lazymatch goal with
  | |- ∀ n e, ?m !! n = Some e → @?P n e =>
      apply (bool_decide_unpack (map_Forall P m)); vm_compute; exact I
  end.

Lemma clean_non_match_witness :
  MatchGetValues (RE := LiteralRegexp) backwards two_entry_rule (ab "y" "8")
    = (false, None, None)
  ∧ MatchGetKeys forwards presence_rule ab_keys
    = (false, None, None).
Proof.
  split.
  - apply (proj1 (clean_non_match (RE := LiteralRegexp) backwards
                    two_entry_rule (ab "y" "8") ab_keys range_ok_backwards)).
    + by_entries.
    + exists "a", (mkMatchExpression MatchIn ["x"]). split; reflexivity.
  - apply (proj2 (clean_non_match (RE := LiteralRegexp) forwards
                    presence_rule (ab "y" "8") ab_keys range_ok_forwards)).
    + by_entries.
    + exists "b", (mkMatchExpression MatchDoesNotExist []).
      split; reflexivity.
Defined.

(** Scenario 6 of the specification, and its counterpart with an entry whose
    evaluation fails: which of the two entries is visited first decides
    between the clean non-match and the error, the list being nil in both
    runs. *)
Example first_failure_decides :
  let m : MatchExpressionSet :=
    {[ "a" := mkMatchExpression MatchIn ["x"];
       "b" := mkMatchExpression MatchGt ["four"] ]} in
  MatchGetValues (RE := LiteralRegexp) forwards m (ab "y" "8")
    = (false, None, None)
  ∧ MatchGetValues (RE := LiteralRegexp) backwards m (ab "y" "8")
    = (false, None,
       Some (NotANumberIn "four" (mkMatchExpression MatchGt ["four"]))).
Proof. split; vm_compute; reflexivity. Qed.

(** Scenario 4 of the specification. *)
Example cores_rule_matches :
  MatchGetValues (RE := LiteralRegexp) forwards cores_rule
    {[ "cpu.cores" := "8" ]}
  = (true, Some [ {[ "Name" := "cpu.cores"; "Value" := "8" ]} ], None).
Proof. vm_compute. reflexivity. Qed.

Lemma matched_elements_deterministic_and_sorted_witness :
  elements_of (MatchGetValues (RE := LiteralRegexp) forwards two_entry_rule
                 (ab "x" "8"))
  = elements_of (MatchGetValues (RE := LiteralRegexp) backwards two_entry_rule
                   (ab "x" "8")).
Proof.
  apply (matched_elements_deterministic_and_sorted (RE := LiteralRegexp)
           forwards backwards forwards backwards forwards backwards
           two_entry_rule (mkMatchExpression MatchInRegexp ["a"])
           (ab "x" "8") ab_keys);
    first [apply range_ok_forwards | apply range_ok_backwards].
Defined.

Example two_entry_rule_elements :
  elements_of (MatchGetValues (RE := LiteralRegexp) backwards two_entry_rule
                 (ab "x" "8"))
  = Some [ {[ "Name" := "a"; "Value" := "x" ]};
           {[ "Name" := "b"; "Value" := "8" ]} ].
Proof. vm_compute. reflexivity. Qed.

Lemma empty_set_matches_witness :
  MatchGetKeys backwards ∅ ab_keys = (true, Some [], None)
  ∧ MatchGetValues (RE := LiteralRegexp) backwards ∅ (ab "x" "8")
    = (true, Some [], None).
Proof.
  apply (empty_set_matches (RE := LiteralRegexp) backwards ab_keys (ab "x" "8")
           range_ok_backwards).
Defined.

Lemma instances_filtered_in_order_witness :
  MatchGetInstances (RE := LiteralRegexp) (λ _, forwards) vendor_rule
    [record "Y"; record "X"]
  = (Some (Attributes <$>
             filter (λ i, satisfies (H := LiteralRegexp) vendor_rule
                            (Attributes i))
               [record "Y"; record "X"]), None)
  ∧ ∃ j i err,
      [record "X"; mkInstanceFeature (ab "x" "eight")] !! j = Some i
      ∧ (MatchValues (RE := LiteralRegexp) forwards two_entry_rule
           (Attributes i)).2 = Some err
      ∧ MatchGetInstances (RE := LiteralRegexp) (λ _, forwards) two_entry_rule
          [record "X"; mkInstanceFeature (ab "x" "eight")]
        = (None, Some err)
      ∧ MatchInstances (RE := LiteralRegexp) (λ _, forwards) two_entry_rule
          [record "X"; mkInstanceFeature (ab "x" "eight")]
        = (false, Some err).
Proof.
  split.
  - apply (proj1 (instances_filtered_in_order (RE := LiteralRegexp)
                    (λ _, forwards) vendor_rule [record "Y"; record "X"]
                    (λ _, range_ok_forwards))).
    intros [|[|j]] i; simpl; intros Hi; try discriminate;
      injection Hi as <-; reflexivity.
  - apply (proj2 (instances_filtered_in_order (RE := LiteralRegexp)
                    (λ _, forwards) two_entry_rule
                    [record "X"; mkInstanceFeature (ab "x" "eight")]
                    (λ _, range_ok_forwards))).
    exists 1%nat, (mkInstanceFeature (ab "x" "eight")).
    split; [reflexivity|]. vm_compute. eauto.
Defined.

(** Scenario 5 of the specification. *)
Example vendor_rule_selects_second :
  MatchGetInstances (RE := LiteralRegexp) (λ _, backwards) vendor_rule
    [record "Y"; record "X"]
  = (Some [ {[ "vendor" := "X" ]} ], None)
  ∧ MatchInstances (RE := LiteralRegexp) (λ _, backwards) vendor_rule
      [record "Y"; record "X"]
    = (true, None).
Proof. split; vm_compute; reflexivity. Qed.

(** The short-circuit on a non-match can hide the error of a later entry:
    on the record [a = y, b = eight] the entry for [a] does not match and
    the entry for [b] fails, so the record is skipped in one order and
    aborts the evaluation in the other. *)
Example skipped_or_failed :
  let instances :=
    [mkInstanceFeature (ab "y" "eight"); mkInstanceFeature (ab "x" "8")] in
  MatchGetInstances (RE := LiteralRegexp) (λ _, forwards) two_entry_rule
    instances
  = (Some [ab "x" "8"], None)
  ∧ MatchGetInstances (RE := LiteralRegexp) (λ _, backwards) two_entry_rule
      instances
    = (None, Some (NotANumber "eight")).
Proof. split; vm_compute; reflexivity. Qed.

(** ** More on the scalar evaluator *)

Lemma UnknownOp_not_in_catalog (tag : string) : UnknownOp tag ∉ matchOps.
Proof.
  intros Hin. unfold matchOps in Hin.
  repeat (apply elem_of_cons in Hin as [Hin|Hin]; [discriminate|]).
  by apply elem_of_nil in Hin.
Qed.

Lemma equals_some_elem_of (value : string) (vs : list string) :
  equals_some value vs = bool_decide (value ∈ vs).
Proof.
  unfold equals_some. induction vs as [|v vs IH]; simpl; [done|].
  rewrite IH. destruct (String.eqb_spec value v) as [->|Hne]; simpl.
  - symmetry. apply bool_decide_eq_true. left.
  - apply bool_decide_ext. rewrite elem_of_cons. split; [by right|].
    by intros [?|?].
Qed.

Section ScalarMore.
Context `{RE : Regexp}.

(** X1.  An operator outside the catalog is reported as an invalid operator
    whatever the candidate and the operands; for an operator of the catalog
    the evaluator reports neither an invalid nor an unsupported operator:
    the default case of the second switch is never reached. *)
Theorem operator_errors (m : MatchExpression) (valid : bool) (value : string) :
  (Op m ∉ matchOps →
     evaluateMatchExpression m valid value
       = (false, Some (InvalidOperator (Op m))))
  ∧ (∀ op, (evaluateMatchExpression m valid value).2
             ≠ Some (UnsupportedOperator op))
  ∧ (Op m ∈ matchOps →
     ∀ op, (evaluateMatchExpression m valid value).2
             ≠ Some (InvalidOperator op)).
Proof.
  destruct m as [op vs]. simpl. split; [|split].
  - intros Hout. unfold evaluateMatchExpression. simpl.
    by rewrite bool_decide_eq_false_2.
  - intros op'. unfold evaluateMatchExpression, Sprintf_v. simpl.
    destruct op; simpl; repeat case_match; simpl; congruence.
  - intros Hin op'. unfold evaluateMatchExpression, Sprintf_v. simpl.
    destruct op; simpl; repeat case_match; simpl; try congruence.
    by apply UnknownOp_not_in_catalog in Hin.
Qed.

(** X2.  The three evaluators of one expression never report a match
    together with an error. *)
Theorem error_excludes_match (m : MatchExpression) (valid : bool)
    (value name : string) (keys : gmap string Nil)
    (values : gmap string string) :
  (is_Some (evaluateMatchExpression m valid value).2 →
     (evaluateMatchExpression m valid value).1 = false)
  ∧ (is_Some (evaluateMatchExpressionKeys m name keys).2 →
     (evaluateMatchExpressionKeys m name keys).1 = false)
  ∧ (is_Some (evaluateMatchExpressionValues m name values).2 →
     (evaluateMatchExpressionValues m name values).1 = false).
Proof.
  split; [|split].
  - destruct m as [op vs].
    unfold evaluateMatchExpression, Sprintf_v. simpl.
    destruct op; simpl; repeat case_match; simpl; try done;
      by intros [? [=]].
  - unfold evaluateMatchExpressionKeys.
    destruct (Op m); simpl; try done; by intros [? [=]].
  - unfold evaluateMatchExpressionValues.
    destruct (evaluateMatchExpression _ _ _) as [b [err|]]; simpl; [done|].
    by intros [? [=]].
Qed.

(** X3.  With a present candidate and at least one operand, In matches
    exactly when the candidate equals one of the operands and NotIn exactly
    when it equals none, both without error. *)
Theorem in_and_notin_are_complements (vs : list string) (value : string) :
  vs ≠ [] →
  evaluateMatchExpression (mkMatchExpression MatchIn vs) true value
    = (bool_decide (value ∈ vs), None)
  ∧ evaluateMatchExpression (mkMatchExpression MatchNotIn vs) true value
    = (negb (bool_decide (value ∈ vs)), None).
Proof.
  intros Hne. destruct vs as [|v vs]; [done|].
  unfold evaluateMatchExpression, Sprintf_v.
  cbn [Op Value length Nat.eqb negb].
  rewrite <- equals_some_elem_of.
  split; by destruct (equals_some value (v :: vs)).
Qed.

(** X4.  With one operand, and candidate and operand both integers, Gt
    matches exactly when the candidate is greater than the operand and Lt
    exactly when it is less, as integers and without error. *)
Theorem gt_and_lt_compare_integers (value v0 : string) (l r : Z) :
  Atoi value = Some l →
  Atoi v0 = Some r →
  evaluateMatchExpression (mkMatchExpression MatchGt [v0]) true value
    = (bool_decide (l > r), None)
  ∧ evaluateMatchExpression (mkMatchExpression MatchLt [v0]) true value
    = (bool_decide (l < r), None).
Proof.
  intros Hl Hr. unfold evaluateMatchExpression, Sprintf_v.
  cbn [Op Value]. simpl. rewrite Hl, Hr. simpl.
  rewrite !andb_false_r, !andb_true_r, orb_false_r. simpl.
  split.
  - destruct (l >? r) eqn:E; f_equal; symmetry;
      [apply bool_decide_eq_true|apply bool_decide_eq_false]; lia.
  - destruct (l <? r) eqn:E; f_equal; symmetry;
      [apply bool_decide_eq_true|apply bool_decide_eq_false]; lia.
Qed.

(** X5.  With the right number of operands and a present candidate, the
    numeric operators name what is not a number: the candidate first, and
    only then the first operand that does not parse. *)
Theorem not_a_number_names_the_culprit (op : MatchOp) (value v0 v1 : string) :
  (op = MatchGt ∨ op = MatchLt →
     (Atoi value = None →
        evaluateMatchExpression (mkMatchExpression op [v0]) true value
          = (false, Some (NotANumber value)))
     ∧ (is_Some (Atoi value) → Atoi v0 = None →
        evaluateMatchExpression (mkMatchExpression op [v0]) true value
          = (false, Some (NotANumberIn v0 (mkMatchExpression op [v0])))))
  ∧ (op = MatchGtLt →
     (Atoi value = None →
        evaluateMatchExpression (mkMatchExpression op [v0; v1]) true value
          = (false, Some (NotANumber value)))
     ∧ (is_Some (Atoi value) → Atoi v0 = None →
        evaluateMatchExpression (mkMatchExpression op [v0; v1]) true value
          = (false, Some (NotANumberIn v0 (mkMatchExpression op [v0; v1]))))
     ∧ (is_Some (Atoi value) → is_Some (Atoi v0) → Atoi v1 = None →
        evaluateMatchExpression (mkMatchExpression op [v0; v1]) true value
          = (false, Some (NotANumberIn v1 (mkMatchExpression op [v0; v1]))))).
Proof.
  split.
  - intros Hop. split.
    + intros Hv. unfold evaluateMatchExpression, Sprintf_v.
      destruct Hop as [-> | ->]; simpl; by rewrite Hv.
    + intros [l Hl] H0. unfold evaluateMatchExpression, Sprintf_v.
      destruct Hop as [-> | ->]; simpl; by rewrite Hl, H0.
  - intros ->. unfold evaluateMatchExpression, Sprintf_v. simpl.
    split; [|split].
    + intros Hv. by rewrite Hv.
    + intros [l Hl] H0. by rewrite Hl, H0.
    + intros [l Hl] [r Hr] H1. by rewrite Hl, Hr, H1.
Qed.

(** X6.  Without operands, IsTrue matches exactly a present candidate that
    is the string "true" and IsFalse exactly a present candidate that is the
    string "false", without error; no candidate matches both. *)
Theorem istrue_and_isfalse_are_literal (valid : bool) (value : string) :
  evaluateMatchExpression (mkMatchExpression MatchIsTrue []) valid value
    = (valid && bool_decide (value = "true"), None)
  ∧ evaluateMatchExpression (mkMatchExpression MatchIsFalse []) valid value
    = (valid && bool_decide (value = "false"), None)
  ∧ ¬ ((evaluateMatchExpression (mkMatchExpression MatchIsTrue []) valid
          value).1 = true
       ∧ (evaluateMatchExpression (mkMatchExpression MatchIsFalse []) valid
            value).1 = true).
Proof.
  unfold evaluateMatchExpression, Sprintf_v. simpl.
  destruct valid; simpl; [|by repeat split; try intros [? ?]].
  destruct (String.eqb_spec value "true") as [Ht|Ht];
    destruct (String.eqb_spec value "false") as [Hf|Hf];
    try (rewrite Ht in Hf; discriminate Hf);
    repeat split; simpl;
    try (f_equal; symmetry;
         first [by apply bool_decide_eq_true | by apply bool_decide_eq_false]);
    by intros [? ?].
Qed.

(** X7.  For an operator of the catalog whose operands are looked at (an
    existence operator, or any operator when the candidate is present), the
    evaluator reports an arity error exactly when the number of operands is
    not the one the operator takes. *)
Theorem arity_error_iff_wrong_count (m : MatchExpression) (valid : bool)
    (value : string) :
  Op m ∈ matchOps →
  existence (Op m) || valid = true →
  arity_ok (Op m) (length (Value m)) = false
  ↔ ∃ err, evaluateMatchExpression m valid value = (false, Some err)
           ∧ is_ArityError err = true.
Proof.
  destruct m as [op vs]. simpl. intros Hin Hlook.
  unfold evaluateMatchExpression, Sprintf_v. simpl.
  destruct op; simpl in *;
    try (by apply UnknownOp_not_in_catalog in Hin);
    try (rewrite Hlook in *; clear Hlook);
    destruct vs as [|v0 [|v1 [|v2 vs]]]; simpl;
    (split;
     [ intros Hbad; try discriminate Hbad; by eexists
     | intros (err & Heq & Harity); try done;
       repeat case_match; simplify_eq; simpl in *; done ]).
Qed.

End ScalarMore.

(** ** More on the loops *)

Lemma nonempty_length {A} (x : list A) :
  (0 <? length x)%nat = bool_decide (x ≠ []).
Proof. by destruct x. Qed.

Section LoopsMore.
Context `{RE : Regexp} `{SO : Sort}.

Lemma set_loop_cases ev elem es ret :
  (∃ x, set_loop ev elem es ret = (true, Some x, None))
  ∨ set_loop ev elem es ret = (false, None, None)
  ∨ ∃ err, set_loop ev elem es ret = (false, None, Some err).
Proof.
  revert ret. induction es as [|[n e] es IH]; intros ret; simpl.
  - left. eauto.
  - destruct (ev n e) as [[] [err|]]; eauto.
Qed.

Lemma set_loop_error_origin ev elem es ret err :
  (set_loop ev elem es ret).2 = Some err →
  ∃ n e, (n, e) ∈ es ∧ (ev n e).2 = Some err.
Proof.
  revert ret. induction es as [|[n e] es IH]; intros ret; simpl; [done|].
  destruct (ev n e) as [b [err'|]] eqn:Hev.
  - destruct b; simpl; intros [= <-]; exists n, e;
      (split; [left|by rewrite Hev]).
  - destruct b; simpl; [|done]. intros Herr.
    destruct (IH _ Herr) as (n' & e' & Hin & He').
    exists n', e'. split; [by right|done].
Qed.

Lemma names_loop_cases {V} (elem : string → V → MatchedElement) m kvs ret :
  (∃ x, names_loop elem m kvs ret = (bool_decide (x ≠ []), Some x, None))
  ∨ ∃ err, names_loop elem m kvs ret = (false, None, Some err).
Proof.
  revert ret. induction kvs as [|[k v] kvs IH]; intros ret; simpl.
  - left. eexists. by rewrite nonempty_length.
  - destruct (evaluateMatchExpression m true k) as [[] [err|]]; eauto.
Qed.

Lemma names_loop_error_origin {V} (elem : string → V → MatchedElement)
    m kvs ret err :
  (names_loop elem m kvs ret).2 = Some err →
  ∃ k v, (k, v) ∈ kvs ∧ (evaluateMatchExpression m true k).2 = Some err.
Proof.
  revert ret. induction kvs as [|[k v] kvs IH]; intros ret; simpl; [done|].
  destruct (evaluateMatchExpression m true k) as [b [err'|]] eqn:Hev.
  - destruct b; simpl; intros [= <-]; exists k, v;
      (split; [left|by rewrite Hev]).
  - destruct b; simpl; intros Herr;
      destruct (IH _ Herr) as (k' & v' & Hin & He');
      exists k', v'; (split; [by right|done]).
Qed.

Lemma MatchGetInstances_loop_cases rgs m instances ret :
  (∃ x, MatchGetInstances_loop rgs m instances ret = (Some (ret ++ x)%list, None)
        ∧ x `sublist_of` Attributes <$> instances)
  ∨ ∃ err, MatchGetInstances_loop rgs m instances ret = (None, Some err).
Proof.
  revert rgs ret. induction instances as [|i instances IH];
    intros rgs ret; simpl.
  - left. exists []. by rewrite app_nil_r.
  - destruct (MatchValues (rgs 0%nat) m (Attributes i)) as [b [err|]].
    { right. exists err. by destruct b. }
    destruct b.
    + destruct (IH (rgs ∘ S) (ret ++ [Attributes i])%list)
        as [(x & -> & Hsub)|[err ->]]; [left|right; eauto].
      exists (Attributes i :: x). rewrite <- app_assoc. split; [done|].
      by apply sublist_skip.
    + destruct (IH (rgs ∘ S) ret) as [(x & -> & Hsub)|[err ->]];
        [left|right; eauto].
      exists x. split; [done|]. by apply sublist_cons.
Qed.

Lemma MatchInstanceAttributeNames_loop_cases rgs m instances ret :
  (∃ x, MatchInstanceAttributeNames_loop rgs m instances ret
          = (Some (ret ++ x)%list, None)
        ∧ x `sublist_of` Attributes <$> instances)
  ∨ ∃ err, MatchInstanceAttributeNames_loop rgs m instances ret
             = (None, Some err).
Proof.
  revert rgs ret. induction instances as [|i instances IH];
    intros rgs ret; simpl.
  - left. exists []. by rewrite app_nil_r.
  - destruct (MatchValueNames (rgs 0%nat) m (Attributes i)) as [[b x0] [err|]].
    { right. exists err. by destruct b. }
    destruct b.
    + destruct (IH (rgs ∘ S) (ret ++ [Attributes i])%list)
        as [(x & -> & Hsub)|[err ->]]; [left|right; eauto].
      exists (Attributes i :: x). rewrite <- app_assoc. split; [done|].
      by apply sublist_skip.
    + destruct (IH (rgs ∘ S) ret) as [(x & -> & Hsub)|[err ->]];
        [left|right; eauto].
      exists x. split; [done|]. by apply sublist_cons.
Qed.

(** X8.  The shapes of the results.  A set evaluator returns a match with a
    list and no error, or no match with a nil list, with or without an
    error.  A name selector returns a list and no error, matching exactly
    when the list is not empty, or an error with a nil list and no match.
    The instance evaluators return a sublist of the attribute maps of the
    input and no error, or an error with a nil list. *)
Theorem result_shapes (rg : MapRange MatchExpression) (rv : MapRange string)
    (rk : MapRange Nil) (rgs : nat → MapRange MatchExpression)
    (rvs : nat → MapRange string) (m : MatchExpressionSet)
    (e : MatchExpression) (values : gmap string string)
    (keys : gmap string Nil) (instances : list InstanceFeature) :
  (∀ r, r = MatchGetValues rg m values ∨ r = MatchGetKeys rg m keys →
     (∃ x, r = (true, Some x, None))
     ∨ r = (false, None, None)
     ∨ ∃ err, r = (false, None, Some err))
  ∧ (∀ r, r = MatchValueNames rv e values ∨ r = MatchKeyNames rk e keys →
     (∃ x, r = (bool_decide (x ≠ []), Some x, None))
     ∨ ∃ err, r = (false, None, Some err))
  ∧ (∀ r, r = MatchGetInstances rgs m instances
          ∨ r = MatchInstanceAttributeNames rvs e instances →
     (∃ x, r = (Some x, None) ∧ x `sublist_of` Attributes <$> instances)
     ∨ ∃ err, r = (None, Some err)).
Proof.
  split; [|split].
  - intros r [-> | ->].
    + unfold MatchGetValues. rewrite MatchGetValues_loop_shape.
      apply set_loop_cases.
    + unfold MatchGetKeys. rewrite MatchGetKeys_loop_shape.
      apply set_loop_cases.
  - intros r [-> | ->].
    + unfold MatchValueNames. rewrite MatchValueNames_loop_shape.
      apply names_loop_cases.
    + unfold MatchKeyNames. rewrite MatchKeyNames_loop_shape.
      apply names_loop_cases.
  - intros r [-> | ->].
    + apply (MatchGetInstances_loop_cases rgs m instances []).
    + apply (MatchInstanceAttributeNames_loop_cases rvs e instances []).
Qed.

End LoopsMore.

(** ** More on the named-set evaluators *)

Section NamedSetsMore.
Context `{RE : Regexp} `{SO : Sort}.

Lemma present_keys_of (name : string) (values : gmap string string) :
  present name (keys_of values) = present name values.
Proof.
  unfold present, keys_of. apply bool_decide_ext.
  rewrite lookup_fmap. apply fmap_is_Some.
Qed.

Lemma set_loop_match_iff ev elem es ret :
  (set_loop ev elem es ret).1.1 = true
  ↔ Forall (λ ne : string * MatchExpression, ev ne.1 ne.2 = (true, None)) es.
Proof.
  destruct (decide (Forall (λ ne : string * MatchExpression,
                              ev ne.1 ne.2 = (true, None)) es)) as [Hall|Hnot].
  - by rewrite (set_loop_all ev elem es ret Hall).
  - destruct (set_loop_not_all ev elem es ret Hnot) as [err ->]. done.
Qed.

Lemma range_Forall_entries {V} (rg : MapRange V) (m : gmap string V)
    (P : string → V → Prop) :
  range_ok rg →
  Forall (λ ne, P ne.1 ne.2) (rg m) ↔ ∀ n e, m !! n = Some e → P n e.
Proof.
  intros Hrg. rewrite Forall_forall. split.
  - intros Hall n e Hne. by apply (Hall (n, e)), range_elem_of.
  - intros Hall [n e] Hin. by apply Hall, (range_elem_of rg).
Qed.

(** X9.  A set matches exactly when each of its entries matches without
    error, whatever the order in which the entries are visited. *)
Theorem set_match_is_conjunction (rg : MapRange MatchExpression)
    (m : MatchExpressionSet) (values : gmap string string)
    (keys : gmap string Nil) :
  range_ok rg →
  ((MatchValues rg m values).1 = true
   ↔ ∀ n e, m !! n = Some e →
            evaluateMatchExpressionValues e n values = (true, None))
  ∧ ((MatchKeys rg m keys).1 = true
     ↔ ∀ n e, m !! n = Some e →
              evaluateMatchExpressionKeys e n keys = (true, None)).
Proof.
  intros Hrg. split.
  - etrans; [|apply (range_Forall_entries rg m
                       (λ n e, evaluateMatchExpressionValues e n values
                               = (true, None)) Hrg)].
    etrans; [|apply (set_loop_match_iff
                       (λ n e, evaluateMatchExpressionValues e n values)
                       (λ n, {[ "Name" := n; "Value" := index values n ]})
                       (rg m) [])].
    rewrite <- MatchGetValues_loop_shape. unfold MatchValues, MatchGetValues.
    by destruct (MatchGetValues_loop (rg m) values []) as [[b x] err].
  - etrans; [|apply (range_Forall_entries rg m
                       (λ n e, evaluateMatchExpressionKeys e n keys
                               = (true, None)) Hrg)].
    etrans; [|apply (set_loop_match_iff
                       (λ n e, evaluateMatchExpressionKeys e n keys)
                       (λ n, {[ "Name" := n ]}) (rg m) [])].
    rewrite <- MatchGetKeys_loop_shape. unfold MatchKeys, MatchGetKeys.
    by destruct (MatchGetKeys_loop (rg m) keys []) as [[b x] err].
Qed.

Lemma set_loop_elements ev elem es x :
  elements_of (set_loop ev elem es []) = Some x → x ≡ₚ elem ∘ fst <$> es.
Proof.
  destruct (decide (Forall (λ ne : string * MatchExpression,
                              ev ne.1 ne.2 = (true, None)) es)) as [Hall|Hnot].
  - rewrite (set_loop_all ev elem es [] Hall). intros [= <-].
    apply sort_Slice_Permutation.
  - destruct (set_loop_not_all ev elem es [] Hnot) as [err ->]. done.
Qed.

(** X10.  A list of matched elements returned by a set evaluator holds one
    element for each entry of the set: its name and, for values, the value
    found under that name (the empty string when the name is missing). *)
Theorem matched_elements_cover_the_set (rg : MapRange MatchExpression)
    (m : MatchExpressionSet) (values : gmap string string)
    (keys : gmap string Nil) :
  range_ok rg →
  (∀ x, elements_of (MatchGetValues rg m values) = Some x →
     x ≡ₚ (λ ne, {[ "Name" := ne.1; "Value" := index values ne.1 ]})
            <$> map_to_list m
     ∧ length x = size m)
  ∧ (∀ x, elements_of (MatchGetKeys rg m keys) = Some x →
       x ≡ₚ (λ ne, {[ "Name" := ne.1 ]}) <$> map_to_list m
       ∧ length x = size m).
Proof.
  intros Hrg. split; intros x Hx.
  - unfold MatchGetValues in Hx. rewrite MatchGetValues_loop_shape in Hx.
    apply set_loop_elements in Hx. rewrite (Hrg m) in Hx.
    split; [done|]. by rewrite Hx, length_fmap, length_map_to_list.
  - unfold MatchGetKeys in Hx. rewrite MatchGetKeys_loop_shape in Hx.
    apply set_loop_elements in Hx. rewrite (Hrg m) in Hx.
    split; [done|]. by rewrite Hx, length_fmap, length_map_to_list.
Qed.

Lemma set_loop_fails ev elem es ret n e :
  (n, e) ∈ es → is_Some (ev n e).2 →
  (set_loop ev elem es ret).1 = (false, None).
Proof.
  intros Hin [err Herr].
  destruct (set_loop_not_all ev elem es ret) as [err' ->]; [|done].
  rewrite Forall_forall. intros Hall. specialize (Hall _ Hin). simpl in Hall.
  rewrite Hall in Herr. done.
Qed.

(** X11.  An error returned by a set evaluator is the error of one of the
    entries of the set, unchanged; and a set with an entry whose evaluation
    fails never matches, in whatever order its entries are visited. *)
Theorem set_errors_come_from_entries (rg : MapRange MatchExpression)
    (m : MatchExpressionSet) (values : gmap string string)
    (keys : gmap string Nil) :
  range_ok rg →
  (∀ err, (MatchGetValues rg m values).2 = Some err →
     ∃ n e, m !! n = Some e
            ∧ (evaluateMatchExpressionValues e n values).2 = Some err)
  ∧ (∀ err, (MatchGetKeys rg m keys).2 = Some err →
       ∃ n e, m !! n = Some e
              ∧ (evaluateMatchExpressionKeys e n keys).2 = Some err)
  ∧ ((∃ n e, m !! n = Some e
             ∧ is_Some (evaluateMatchExpressionValues e n values).2) →
     (MatchGetValues rg m values).1 = (false, None))
  ∧ ((∃ n e, m !! n = Some e
             ∧ is_Some (evaluateMatchExpressionKeys e n keys).2) →
     (MatchGetKeys rg m keys).1 = (false, None)).
Proof.
  intros Hrg. unfold MatchGetValues, MatchGetKeys.
  rewrite MatchGetValues_loop_shape, MatchGetKeys_loop_shape.
  split; [|split; [|split]].
  - intros err (n & e & Hin & He)%set_loop_error_origin.
    exists n, e. split; [by apply (range_elem_of rg)|done].
  - intros err (n & e & Hin & He)%set_loop_error_origin.
    exists n, e. split; [by apply (range_elem_of rg)|done].
  - intros (n & e & Hne & Herr).
    apply (set_loop_fails _ _ _ _ n e); [by apply range_elem_of|done].
  - intros (n & e & Hne & Herr).
    apply (set_loop_fails _ _ _ _ n e); [by apply range_elem_of|done].
Qed.

Lemma existence_values_keys (m : MatchExpression) (name : string)
    (values : gmap string string) :
  existence (Op m) = true → Value m = [] →
  evaluateMatchExpressionValues m name values
  = evaluateMatchExpressionKeys m name (keys_of values).
Proof.
  destruct m as [op vs]. simpl. intros Hop ->.
  unfold evaluateMatchExpressionValues, evaluateMatchExpressionKeys,
    evaluateMatchExpression.
  rewrite present_keys_of. simpl.
  destruct op; try done; by destruct (present name values).
Qed.

Lemma existence_loops_agree es values ret1 ret2 :
  Forall (λ ne : string * MatchExpression,
            existence (Op ne.2) = true ∧ Value ne.2 = []) es →
  (MatchGetValues_loop es values ret1).1.1
    = (MatchGetKeys_loop es (keys_of values) ret2).1.1
  ∧ (MatchGetValues_loop es values ret1).2
    = (MatchGetKeys_loop es (keys_of values) ret2).2.
Proof.
  intros Hall. revert ret1 ret2.
  induction Hall as [|[n e] es [Hop Hvs] _ IH]; intros ret1 ret2; simpl;
    [done|].
  simpl in Hop, Hvs. rewrite (existence_values_keys e n values Hop Hvs).
  destruct (evaluateMatchExpressionKeys e n (keys_of values)) as [[] [err|]];
    first [done | apply IH].
Qed.

(** X12.  On the operators Any, Exists and DoesNotExist without operands,
    matching the values of a map and matching its set of keys are the same:
    for one expression, and for a set of such expressions visited in the
    same order. *)
Theorem existence_rules_only_need_keys (rg : MapRange MatchExpression)
    (m : MatchExpressionSet) (values : gmap string string) :
  range_ok rg →
  (∀ n e, m !! n = Some e → existence (Op e) = true ∧ Value e = []) →
  (∀ n e, m !! n = Some e →
     evaluateMatchExpressionValues e n values
     = evaluateMatchExpressionKeys e n (keys_of values))
  ∧ MatchValues rg m values = MatchKeys rg m (keys_of values).
Proof.
  intros Hrg Hex. split.
  - intros n e Hne. destruct (Hex n e Hne). by apply existence_values_keys.
  - unfold MatchValues, MatchKeys, MatchGetValues, MatchGetKeys.
    destruct (existence_loops_agree (rg m) values [] []) as [Hb He].
    { by apply (range_Forall_entries rg m
                  (λ n e, existence (Op e) = true ∧ Value e = [])). }
    destruct (MatchGetValues_loop (rg m) values []) as [[b1 x1] e1].
    destruct (MatchGetKeys_loop (rg m) (keys_of values) [])
      as [[b2 x2] e2].
    simpl in *. congruence.
Qed.

(** X13.  Under a name that the map of values does not hold, an expression
    matches exactly when it is Any or DoesNotExist without operands. *)
Theorem missing_key_matches (m : MatchExpression) (name : string)
    (values : gmap string string) :
  values !! name = None →
  (evaluateMatchExpressionValues m name values).1 = true
  ↔ (Op m = MatchAny ∨ Op m = MatchDoesNotExist) ∧ Value m = [].
Proof.
  destruct m as [op vs]. simpl. intros Hnone.
  unfold evaluateMatchExpressionValues, evaluateMatchExpression, present, index.
  rewrite Hnone. simpl.
  destruct op, vs as [|v0 vs]; simpl;
    (split;
     [ intros Ht; try discriminate Ht; auto
     | intros [[Ho|Ho] Hv]; try discriminate Ho; try discriminate Hv; done ]).
Qed.

End NamedSetsMore.

(** ** More on the name selectors and the instance evaluators *)

Section NamesMore.
Context `{RE : Regexp} `{SO : Sort}.

Lemma names_loop_spec {V} (elem : string → V → MatchedElement)
    (m : MatchExpression) (rg : MapRange V) (mp : gmap string V) :
  range_ok rg →
  (∀ k, is_Some (mp !! k) → (evaluateMatchExpression m true k).2 = None) →
  ∃ x, names_loop elem m (rg mp) [] = (bool_decide (x ≠ []), Some x, None)
       ∧ ∀ el, el ∈ x ↔
           ∃ k v, mp !! k = Some v
                  ∧ (evaluateMatchExpression m true k).1 = true
                  ∧ el = elem k v.
Proof.
  intros Hrg Hok.
  assert (Forall (λ kv : string * V,
                    (evaluateMatchExpression m true kv.1).2 = None) (rg mp))
    as Hclean.
  { apply Forall_forall. intros [k v] Hin%range_elem_of; [|done].
    apply Hok. by exists v. }
  rewrite (names_loop_clean elem m (rg mp) [] Hclean). cbv zeta.
  eexists. split; [by rewrite nonempty_length|].
  intros el. rewrite sort_Slice_Permutation. simpl.
  rewrite list_elem_of_fmap. split.
  - intros ([k v] & -> & Hin). apply list_elem_of_filter in Hin as [Hsel Hin].
    apply range_elem_of in Hin; [|done]. by exists k, v.
  - intros (k & v & Hkv & Hsel & ->). exists (k, v). split; [done|].
    apply list_elem_of_filter. split; [done|]. by apply range_elem_of.
Qed.

Lemma names_loop_fails {V} (elem : string → V → MatchedElement)
    (m : MatchExpression) (rg : MapRange V) (mp : gmap string V) :
  range_ok rg →
  (∃ k, is_Some (mp !! k) ∧ is_Some (evaluateMatchExpression m true k).2) →
  ∃ k err, is_Some (mp !! k)
           ∧ (evaluateMatchExpression m true k).2 = Some err
           ∧ names_loop elem m (rg mp) [] = (false, None, Some err).
Proof.
  intros Hrg (k & [v Hk] & [err Herr]).
  destruct (names_loop_error elem m (rg mp) []) as [err' Hloop].
  { rewrite Forall_forall. intros Hall.
    assert ((k, v) ∈ rg mp) as Hin by by apply range_elem_of.
    specialize (Hall _ Hin). simpl in Hall. congruence. }
  destruct (names_loop_error_origin elem m (rg mp) [] err')
    as (k' & v' & Hin & He'); [by rewrite Hloop|].
  exists k', err'. split; [|done].
  exists v'. by apply (range_elem_of rg).
Qed.

(** X14.  When the expression evaluates without error on every name of the
    candidate, a name selector returns the elements of exactly the names
    the expression matches (with their values, for a map of values), and
    it matches exactly when there is one. *)
Theorem names_are_the_matching_names (rv : MapRange string)
    (rk : MapRange Nil) (e : MatchExpression) (values : gmap string string)
    (keys : gmap string Nil) :
  range_ok rv → range_ok rk →
  ((∀ k, is_Some (values !! k) →
         (evaluateMatchExpression e true k).2 = None) →
   ∃ x, MatchValueNames rv e values = (bool_decide (x ≠ []), Some x, None)
        ∧ ∀ el, el ∈ x ↔
            ∃ k v, values !! k = Some v
                   ∧ (evaluateMatchExpression e true k).1 = true
                   ∧ el = {[ "Name" := k; "Value" := v ]})
  ∧ ((∀ k, is_Some (keys !! k) →
           (evaluateMatchExpression e true k).2 = None) →
     ∃ x, MatchKeyNames rk e keys = (bool_decide (x ≠ []), Some x, None)
          ∧ ∀ el, el ∈ x ↔
              ∃ k, is_Some (keys !! k)
                   ∧ (evaluateMatchExpression e true k).1 = true
                   ∧ el = {[ "Name" := k ]}).
Proof.
  intros Hrv Hrk. split; intros Hok.
  - unfold MatchValueNames. rewrite MatchValueNames_loop_shape.
    by apply names_loop_spec.
  - unfold MatchKeyNames. rewrite MatchKeyNames_loop_shape.
    destruct (names_loop_spec (λ k (_ : Nil), {[ "Name" := k ]}) e rk keys
                Hrk Hok) as (x & -> & Hx).
    exists x. split; [done|]. intros el. rewrite Hx. split.
    + intros (k & v & Hk & Hsel & ->). exists k. by split; [exists v|].
    + intros (k & [v Hk] & Hsel & ->). by exists k, v.
Qed.

(** X15.  When the expression fails on one of the names of the candidate, a
    name selector returns no match, a nil list and the error of a name of
    the candidate, in whatever order the names are visited. *)
Theorem names_fail_in_every_order (rv : MapRange string) (rk : MapRange Nil)
    (e : MatchExpression) (values : gmap string string)
    (keys : gmap string Nil) :
  range_ok rv → range_ok rk →
  ((∃ k, is_Some (values !! k)
         ∧ is_Some (evaluateMatchExpression e true k).2) →
   ∃ k err, is_Some (values !! k)
            ∧ (evaluateMatchExpression e true k).2 = Some err
            ∧ MatchValueNames rv e values = (false, None, Some err))
  ∧ ((∃ k, is_Some (keys !! k)
           ∧ is_Some (evaluateMatchExpression e true k).2) →
     ∃ k err, is_Some (keys !! k)
              ∧ (evaluateMatchExpression e true k).2 = Some err
              ∧ MatchKeyNames rk e keys = (false, None, Some err)).
Proof.
  intros Hrv Hrk. split; intros Hbad.
  - unfold MatchValueNames. rewrite MatchValueNames_loop_shape.
    by apply names_loop_fails.
  - unfold MatchKeyNames. rewrite MatchKeyNames_loop_shape.
    by apply names_loop_fails.
Qed.

Lemma MatchValueNames_selects (rg : MapRange string) (e : MatchExpression)
    (values : gmap string string) :
  range_ok rg →
  (∀ k, is_Some (values !! k) →
        (evaluateMatchExpression e true k).2 = None) →
  ∃ x, MatchValueNames rg e values
       = (bool_decide (selects e values), Some x, None).
Proof.
  intros Hrg Hok. unfold MatchValueNames. rewrite MatchValueNames_loop_shape.
  destruct (names_loop_spec (λ k v, {[ "Name" := k; "Value" := v ]}) e rg
              values Hrg Hok) as (x & -> & Hx).
  exists x. do 2 f_equal. apply bool_decide_ext. unfold selects. split.
  - intros Hne. destruct x as [|el x]; [done|].
    destruct (proj1 (Hx el)) as (k & v & Hkv & Hsel & _); [left|].
    exists k, v. split; [done|].
    specialize (Hok k (ex_intro _ v Hkv)).
    destruct (evaluateMatchExpression e true k) as [b err]. simpl in *.
    by subst.
  - intros (k & v & Hkv & Hsel) ->.
    assert ({[ "Name" := k; "Value" := v ]} ∈ @nil MatchedElement) as Hin.
    { apply Hx. exists k, v. split; [done|]. by rewrite Hsel. }
    by apply elem_of_nil in Hin.
Qed.

Lemma MatchInstanceAttributeNames_loop_clean (rvs : nat → MapRange string)
    (e : MatchExpression) (instances : list InstanceFeature)
    (ret : list MatchedElement) :
  (∀ j, range_ok (rvs j)) →
  (∀ i k, i ∈ instances → is_Some (Attributes i !! k) →
          (evaluateMatchExpression e true k).2 = None) →
  MatchInstanceAttributeNames_loop rvs e instances ret
  = (Some (ret ++ (Attributes <$>
                     filter (λ i, selects e (Attributes i)) instances))%list,
     None).
Proof.
  revert rvs ret. induction instances as [|i instances IH];
    intros rvs ret Hrg Hok; simpl.
  - by rewrite app_nil_r.
  - destruct (MatchValueNames_selects (rvs 0%nat) e (Attributes i) (Hrg _))
      as [x ->].
    { intros k Hk. apply (Hok i k); [left|done]. }
    assert (∀ i' k, i' ∈ instances → is_Some (Attributes i' !! k) →
              (evaluateMatchExpression e true k).2 = None) as Hok'
      by (intros i' k Hi'; apply Hok; by right).
    destruct (decide (selects e (Attributes i))) as [Hsel|Hnot].
    + rewrite bool_decide_eq_true_2, filter_cons_True by done.
      rewrite IH; [|by intros j; apply Hrg|done].
      simpl. by rewrite <- app_assoc.
    + rewrite bool_decide_eq_false_2, filter_cons_False by done.
      apply IH; [by intros j; apply Hrg|done].
Qed.

Lemma MatchInstanceAttributeNames_loop_fails (rvs : nat → MapRange string)
    (e : MatchExpression) (instances : list InstanceFeature)
    (ret : list MatchedElement) :
  (∀ j, range_ok (rvs j)) →
  (∃ i k, i ∈ instances ∧ is_Some (Attributes i !! k)
          ∧ is_Some (evaluateMatchExpression e true k).2) →
  ∃ err, MatchInstanceAttributeNames_loop rvs e instances ret
         = (None, Some err).
Proof.
  revert rvs ret. induction instances as [|i0 instances IH];
    intros rvs ret Hrg (i & k & Hin & Hk & Herr).
  - by apply elem_of_nil in Hin.
  - simpl.
    destruct (decide (map_Forall
                (λ k _, (evaluateMatchExpression e true k).2 = None)
                (Attributes i0))) as [Hclean|Hbad].
    + destruct (MatchValueNames_selects (rvs 0%nat) e (Attributes i0) (Hrg _))
        as [x ->].
      { intros k' [v' Hk']. by apply (Hclean k' v'). }
      apply elem_of_cons in Hin as [->|Hin].
      { destruct Hk as [v Hv]. destruct Herr as [err Herr].
        rewrite (Hclean k v Hv) in Herr. done. }
      destruct (bool_decide (selects e (Attributes i0)));
        (apply IH; [by intros j; apply Hrg|by exists i, k]).
    + apply map_not_Forall in Hbad as (k' & v' & Hk' & Hbad); [|apply _].
      destruct (names_loop_fails (λ k v, {[ "Name" := k; "Value" := v ]})
                  e (rvs 0%nat) (Attributes i0) (Hrg _))
        as (k'' & err & _ & _ & Hloop).
      { exists k'. split; [by exists v'|].
        by destruct ((evaluateMatchExpression e true k').2). }
      unfold MatchValueNames. rewrite MatchValueNames_loop_shape, Hloop.
      by exists err.
Qed.

(** X16.  When the expression evaluates without error on the attribute
    names of every instance, [MatchInstanceAttributeNames] returns, in the
    order of the input, the attribute maps of the instances that have an
    attribute name the expression matches.  When it fails on an attribute
    name of some instance, the result is a nil slice and an error, in
    whatever order the attributes are visited. *)
Theorem attribute_names_select_instances (rvs : nat → MapRange string)
    (e : MatchExpression) (instances : list InstanceFeature) :
  (∀ j, range_ok (rvs j)) →
  ((∀ i k, i ∈ instances → is_Some (Attributes i !! k) →
           (evaluateMatchExpression e true k).2 = None) →
   MatchInstanceAttributeNames rvs e instances
   = (Some (Attributes <$>
              filter (λ i, selects e (Attributes i)) instances), None))
  ∧ ((∃ i k, i ∈ instances ∧ is_Some (Attributes i !! k)
             ∧ is_Some (evaluateMatchExpression e true k).2) →
     ∃ err, MatchInstanceAttributeNames rvs e instances = (None, Some err)).
Proof.
  intros Hrg. split.
  - intros Hok. unfold MatchInstanceAttributeNames.
    by rewrite (MatchInstanceAttributeNames_loop_clean rvs e instances []).
  - intros Hbad. by apply MatchInstanceAttributeNames_loop_fails.
Qed.

Lemma MatchGetInstances_loop_empty_set (rgs : nat → MapRange MatchExpression)
    (instances : list InstanceFeature) (ret : list MatchedElement) :
  (∀ j, range_ok (rgs j)) →
  MatchGetInstances_loop rgs ∅ instances ret
  = (Some (ret ++ (Attributes <$> instances))%list, None).
Proof.
  revert rgs ret. induction instances as [|i instances IH];
    intros rgs ret Hrg; simpl.
  - by rewrite app_nil_r.
  - rewrite (proj1 (MatchValues_satisfies (rgs 0%nat) ∅ (Attributes i)
                      (Hrg _))) by apply map_Forall_empty.
    rewrite IH by (intros j; apply Hrg). by rewrite <- app_assoc.
Qed.

(** X17.  An empty set matches every instance: [MatchGetInstances] returns
    the attribute maps of all the instances, and [MatchInstances] matches
    exactly when there is an instance. *)
Theorem empty_set_matches_every_instance
    (rgs : nat → MapRange MatchExpression) (instances : list InstanceFeature) :
  (∀ j, range_ok (rgs j)) →
  MatchGetInstances rgs ∅ instances = (Some (Attributes <$> instances), None)
  ∧ MatchInstances rgs ∅ instances = (bool_decide (instances ≠ []), None).
Proof.
  intros Hrg. unfold MatchInstances, MatchGetInstances.
  rewrite MatchGetInstances_loop_empty_set by done. simpl.
  split; [done|]. by rewrite length_fmap, nonempty_length.
Qed.

End NamesMore.

(** ** Names of values and names of keys *)

Lemma ascending_strings_NoDup (l : list string) :
  StronglySorted (λ a b, (a <? b)%string = true) l → NoDup l.
Proof.
  induction 1 as [|a l _ IH Ha]; constructor; [|done].
  intros Hin. rewrite Forall_forall in Ha. specialize (Ha a Hin).
  apply ltb_true_lt in Ha as [_ Hne]. done.
Qed.

Lemma ascending_strings_unique (l1 l2 : list string) :
  StronglySorted (λ a b, (a <? b)%string = true) l1 →
  StronglySorted (λ a b, (a <? b)%string = true) l2 →
  (∀ n, n ∈ l1 ↔ n ∈ l2) →
  l1 = l2.
Proof.
  intros H1 H2 Hsame.
  apply (StronglySorted_unique_strong (λ a b, (a <? b)%string = true));
    [|done|done|].
  - intros a b _ _ [Hab _]%ltb_true_lt [Hba Hne]%ltb_true_lt.
    destruct Hne. by apply (anti_symm String.le).
  - apply NoDup_Permutation; [by apply ascending_strings_NoDup..|done].
Qed.

Section NamesAgree.
Context `{RE : Regexp} `{SO : Sort}.

(** X18.  Selecting names in a map of values and selecting them in its set
    of keys give the same answer, the same names in the same order, and an
    error in the one exactly when in the other. *)
Theorem value_names_are_key_names (rv : MapRange string) (rk : MapRange Nil)
    (e : MatchExpression) (values : gmap string string) :
  range_ok rv → range_ok rk →
  (MatchValueNames rv e values).1.1 = (MatchKeyNames rk e (keys_of values)).1.1
  ∧ names_of (MatchValueNames rv e values)
    = names_of (MatchKeyNames rk e (keys_of values))
  ∧ (is_Some (MatchValueNames rv e values).2
     ↔ is_Some (MatchKeyNames rk e (keys_of values)).2).
Proof.
  intros Hrv Hrk.
  assert (∀ k, is_Some (keys_of values !! k) ↔ is_Some (values !! k)) as Hdom.
  { intros k. unfold keys_of. rewrite lookup_fmap. apply fmap_is_Some. }
  destruct (decide (map_Forall
              (λ k _, (evaluateMatchExpression e true k).2 = None) values))
    as [Hclean|Hbad].
  - assert (∀ k, is_Some (values !! k) →
              (evaluateMatchExpression e true k).2 = None) as Hok
      by (intros k [v Hk]; by apply (Hclean k v)).
    assert (∀ k, is_Some (keys_of values !! k) →
              (evaluateMatchExpression e true k).2 = None) as Hok'
      by (intros k Hk; by apply Hok, Hdom).
    pose proof (names_loop_sorted (λ k v, {[ "Name" := k; "Value" := v ]})
                  Name_value_element e (rv values)) as Hsv.
    pose proof (names_loop_sorted (λ k (_ : Nil), {[ "Name" := k ]})
                  (λ k _, Name_key_element k) e (rk (keys_of values))) as Hsk.
    unfold MatchValueNames, MatchKeyNames.
    rewrite MatchValueNames_loop_shape, MatchKeyNames_loop_shape.
    destruct (names_loop_spec (λ k v, {[ "Name" := k; "Value" := v ]}) e rv
                values Hrv Hok) as (xv & Hv & Hxv).
    destruct (names_loop_spec (λ k (_ : Nil), {[ "Name" := k ]}) e rk
                (keys_of values) Hrk Hok') as (xk & Hk & Hxk).
    rewrite Hv, Hk in *. unfold names_of, elements_of in *. simpl in *.
    specialize (Hsv xv (range_NoDup rv values Hrv) eq_refl).
    specialize (Hsk xk (range_NoDup rk (keys_of values) Hrk) eq_refl).
    assert ((λ a, index a "Name") <$> xv = (λ a, index a "Name") <$> xk)
      as Hnames.
    { apply ascending_strings_unique.
      - eapply StronglySorted_fmap; [|exact Hsv]. done.
      - eapply StronglySorted_fmap; [|exact Hsk]. done.
      - intros n. rewrite !list_elem_of_fmap. split.
        + intros (el & -> & Hin).
          apply Hxv in Hin as (k & v & Hkv & Hsel & ->).
          exists {[ "Name" := k ]}.
          rewrite Name_value_element, Name_key_element. split; [done|].
          apply Hxk. exists k, (). split; [|done].
          unfold keys_of. by rewrite lookup_fmap, Hkv.
        + intros (el & -> & Hin).
          apply Hxk in Hin as (k & u & Hku & Hsel & ->).
          assert (is_Some (values !! k)) as [v Hkv]
            by (apply Hdom; by exists u).
          exists {[ "Name" := k; "Value" := v ]}.
          rewrite Name_value_element, Name_key_element. split; [done|].
          apply Hxv. by exists k, v. }
    split; [|split].
    + apply bool_decide_ext. split; intros Hne ->.
      * rewrite fmap_nil in Hnames. by destruct xv.
      * rewrite fmap_nil in Hnames. by destruct xk.
    + by rewrite Hnames.
    + split; by intros [? [=]].
  - apply map_not_Forall in Hbad as (k & v & Hkv & Hbad); [|apply _].
    assert (is_Some (evaluateMatchExpression e true k).2) as Herr
      by by destruct ((evaluateMatchExpression e true k).2).
    unfold MatchValueNames, MatchKeyNames.
    rewrite MatchValueNames_loop_shape, MatchKeyNames_loop_shape.
    destruct (names_loop_fails (λ k v, {[ "Name" := k; "Value" := v ]}) e rv
                values Hrv) as (k1 & err1 & _ & _ & ->).
    { exists k. split; [by exists v|done]. }
    destruct (names_loop_fails (λ k (_ : Nil), {[ "Name" := k ]}) e rk
                (keys_of values) Hrk) as (k2 & err2 & _ & _ & ->).
    { exists k. split; [apply Hdom; by exists v|done]. }
    simpl. split; [done|]. split; [done|]. split; by eauto.
Qed.

End NamesAgree.

(** ** Closed instances of the further properties *)

Lemma operator_errors_witness :
  evaluateMatchExpression (RE := LiteralRegexp)
    (mkMatchExpression (UnknownOp "Foo") ["x"]) true "v"
  = (false, Some (InvalidOperator (UnknownOp "Foo"))).
Proof.
  apply (proj1 (operator_errors (RE := LiteralRegexp)
                  (mkMatchExpression (UnknownOp "Foo") ["x"]) true "v")).
  apply UnknownOp_not_in_catalog.
Defined.

Lemma error_excludes_match_witness :
  (evaluateMatchExpression (RE := LiteralRegexp)
     (mkMatchExpression MatchGt ["four"]) true "8").1 = false.
Proof.
  apply (proj1 (error_excludes_match (RE := LiteralRegexp)
                  (mkMatchExpression MatchGt ["four"]) true "8" "b" ab_keys
                  (ab "x" "8"))).
  vm_compute. eauto.
Defined.

Lemma in_and_notin_are_complements_witness :
  evaluateMatchExpression (RE := LiteralRegexp)
    (mkMatchExpression MatchIn ["a"; "b"]) true "b"
  = (bool_decide ("b" ∈ ["a"; "b"]), None)
  ∧ evaluateMatchExpression (RE := LiteralRegexp)
      (mkMatchExpression MatchNotIn ["a"; "b"]) true "b"
    = (negb (bool_decide ("b" ∈ ["a"; "b"])), None).
Proof.
  apply (in_and_notin_are_complements (RE := LiteralRegexp) ["a"; "b"] "b").
  discriminate.
Defined.

Lemma gt_and_lt_compare_integers_witness :
  evaluateMatchExpression (RE := LiteralRegexp)
    (mkMatchExpression MatchGt ["9"]) true "10" = (bool_decide (10 > 9), None)
  ∧ evaluateMatchExpression (RE := LiteralRegexp)
      (mkMatchExpression MatchLt ["9"]) true "10"
    = (bool_decide (10 < 9), None).
Proof.
  apply (gt_and_lt_compare_integers (RE := LiteralRegexp) "10" "9" 10 9);
    reflexivity.
Defined.

Lemma not_a_number_names_the_culprit_witness :
  evaluateMatchExpression (RE := LiteralRegexp)
    (mkMatchExpression MatchGtLt ["1"; "five"]) true "3"
  = (false, Some (NotANumberIn "five"
                    (mkMatchExpression MatchGtLt ["1"; "five"]))).
Proof.
  apply (proj2 (not_a_number_names_the_culprit (RE := LiteralRegexp)
                  MatchGtLt "3" "1" "five") eq_refl);
    first [by eexists | reflexivity].
Defined.

Lemma arity_error_iff_wrong_count_witness :
  ∃ err,
    evaluateMatchExpression (RE := LiteralRegexp)
      (mkMatchExpression MatchGt ["1"; "2"]) true "3" = (false, Some err)
    ∧ is_ArityError err = true.
Proof.
  apply (arity_error_iff_wrong_count (RE := LiteralRegexp)
           (mkMatchExpression MatchGt ["1"; "2"]) true "3");
    [|reflexivity..].
  simpl. unfold matchOps. do 6 right. left.
Defined.

Lemma result_shapes_witness :
  (∃ x, MatchGetKeys forwards presence_rule ab_keys = (true, Some x, None))
  ∨ MatchGetKeys forwards presence_rule ab_keys = (false, None, None)
  ∨ ∃ err, MatchGetKeys forwards presence_rule ab_keys
           = (false, None, Some err).
Proof.
  apply (proj1 (result_shapes (RE := LiteralRegexp) forwards forwards forwards
                  (λ _, forwards) (λ _, forwards) presence_rule
                  (mkMatchExpression MatchAny []) (ab "x" "8") ab_keys [])).
  by right.
Defined.

Lemma set_match_is_conjunction_witness :
  (MatchValues (RE := LiteralRegexp) backwards two_entry_rule (ab "x" "8")).1
  = true.
Proof.
  apply (proj1 (set_match_is_conjunction (RE := LiteralRegexp) backwards
                  two_entry_rule (ab "x" "8") ab_keys range_ok_backwards)).
  by_entries.
Defined.

Lemma matched_elements_cover_the_set_witness :
  [element "a" "x"; element "b" "8"]
    ≡ₚ (λ ne, element ne.1 (index (ab "x" "8") ne.1))
         <$> map_to_list two_entry_rule
  ∧ length [element "a" "x"; element "b" "8"] = size two_entry_rule.
Proof.
  apply (proj1 (matched_elements_cover_the_set (RE := LiteralRegexp) backwards
                  two_entry_rule (ab "x" "8") ab_keys range_ok_backwards)).
  vm_compute. reflexivity.
Defined.

Lemma set_errors_come_from_entries_witness :
  (MatchGetValues (RE := LiteralRegexp) forwards two_entry_rule
     (ab "y" "eight")).1 = (false, None).
Proof.
  apply (set_errors_come_from_entries (RE := LiteralRegexp) forwards
           two_entry_rule (ab "y" "eight") ab_keys range_ok_forwards).
  exists "b", (mkMatchExpression MatchGt ["4"]).
  split; [reflexivity|]. vm_compute. eauto.
Defined.

Lemma existence_rules_only_need_keys_witness :
  MatchValues (RE := LiteralRegexp) backwards presence_rule (ab "x" "8")
  = MatchKeys backwards presence_rule (keys_of (ab "x" "8")).
Proof.
  apply (existence_rules_only_need_keys (RE := LiteralRegexp) backwards
           presence_rule (ab "x" "8") range_ok_backwards).
  by_entries.
Defined.

Lemma missing_key_matches_witness :
  (evaluateMatchExpressionValues (RE := LiteralRegexp)
     (mkMatchExpression MatchDoesNotExist []) "c" (ab "x" "8")).1 = true.
Proof.
  apply (missing_key_matches (RE := LiteralRegexp)
           (mkMatchExpression MatchDoesNotExist []) "c" (ab "x" "8"));
    [reflexivity|].
  split; [by right|reflexivity].
Defined.

Lemma names_are_the_matching_names_witness :
  ∃ x,
    MatchKeyNames (RE := LiteralRegexp) backwards
      (mkMatchExpression MatchIn ["a"; "c"]) ab_keys
    = (bool_decide (x ≠ []), Some x, None)
    ∧ ∀ el, el ∈ x ↔
        ∃ k, is_Some (ab_keys !! k)
             ∧ (evaluateMatchExpression (RE := LiteralRegexp)
                  (mkMatchExpression MatchIn ["a"; "c"]) true k).1 = true
             ∧ el = {[ "Name" := k ]}.
Proof.
  apply (names_are_the_matching_names (RE := LiteralRegexp) forwards backwards
           (mkMatchExpression MatchIn ["a"; "c"]) (ab "x" "8") ab_keys
           range_ok_forwards range_ok_backwards).
  intros k _. unfold evaluateMatchExpression. simpl. by repeat case_match.
Defined.

Lemma names_fail_in_every_order_witness :
  ∃ k err,
    is_Some (ab "x" "8" !! k)
    ∧ (evaluateMatchExpression (RE := LiteralRegexp)
         (mkMatchExpression MatchGt ["4"]) true k).2 = Some err
    ∧ MatchValueNames (RE := LiteralRegexp) backwards
        (mkMatchExpression MatchGt ["4"]) (ab "x" "8")
      = (false, None, Some err).
Proof.
  apply (names_fail_in_every_order (RE := LiteralRegexp) backwards forwards
           (mkMatchExpression MatchGt ["4"]) (ab "x" "8") ab_keys
           range_ok_backwards range_ok_forwards).
  exists "a". split; vm_compute; eauto.
Defined.

Lemma attribute_names_select_instances_witness :
  MatchInstanceAttributeNames (RE := LiteralRegexp) (λ _, backwards)
    (mkMatchExpression MatchIn ["vendor"])
    [mkInstanceFeature (ab "x" "8"); record "X"]
  = (Some (Attributes <$>
             filter (λ i, selects (H := LiteralRegexp)
                            (mkMatchExpression MatchIn ["vendor"])
                            (Attributes i))
               [mkInstanceFeature (ab "x" "8"); record "X"]), None).
Proof.
  apply (attribute_names_select_instances (RE := LiteralRegexp)
           (λ _, backwards) (mkMatchExpression MatchIn ["vendor"])
           [mkInstanceFeature (ab "x" "8"); record "X"]
           (λ _, range_ok_backwards)).
  intros i k _ _. unfold evaluateMatchExpression. simpl.
  by repeat case_match.
Defined.

(** An instance is selected by one of its attribute names, whatever the
    value under it. *)
Example vendor_attribute_selects_second :
  MatchInstanceAttributeNames (RE := LiteralRegexp) (λ _, backwards)
    (mkMatchExpression MatchIn ["vendor"])
    [mkInstanceFeature (ab "x" "8"); record "X"]
  = (Some [ {[ "vendor" := "X" ]} ], None).
Proof. vm_compute. reflexivity. Qed.

Lemma empty_set_matches_every_instance_witness :
  MatchGetInstances (RE := LiteralRegexp) (λ _, backwards) ∅
    [record "Y"; record "X"]
  = (Some (Attributes <$> [record "Y"; record "X"]), None)
  ∧ MatchInstances (RE := LiteralRegexp) (λ _, backwards) ∅
      [record "Y"; record "X"]
    = (bool_decide ([record "Y"; record "X"] ≠ []), None).
Proof.
  apply (empty_set_matches_every_instance (RE := LiteralRegexp)
           (λ _, backwards) [record "Y"; record "X"]
           (λ _, range_ok_backwards)).
Defined.

Lemma value_names_are_key_names_witness :
  names_of (MatchValueNames (RE := LiteralRegexp) forwards
              (mkMatchExpression MatchInRegexp ["a"; "b"]) (ab "x" "8"))
  = names_of (MatchKeyNames (RE := LiteralRegexp) backwards
                (mkMatchExpression MatchInRegexp ["a"; "b"])
                (keys_of (ab "x" "8"))).
Proof.
  apply (value_names_are_key_names (RE := LiteralRegexp) forwards backwards
           (mkMatchExpression MatchInRegexp ["a"; "b"]) (ab "x" "8")
           range_ok_forwards range_ok_backwards).
Defined.
